(** * The lineage viewport of [frontend/src/App.js] (component [AlationStyleLineage])

    A shallow embedding of the pan/zoom canvas: the viewport transform and
    its handlers ([handleWheel], [zoomIn], [zoomOut], [fitToView],
    [resetView], the drag handlers), the content-bounds scan
    ([getContentBounds]), the expand/collapse list ([toggleTable]) and the
    per-frame rendering of connections and tables.

    Numbers.  JavaScript numbers are IEEE doubles.  The embedding reads them
    as real numbers ([R]): every arithmetic operation is the exact one, so
    rounding, overflow and absorption are out of the model.  The two loops
    that start from [Infinity] / [-Infinity] are modelled over [jsnum], the
    reals extended with the two infinities and [NaN], because the code tests
    [minX === Infinity] and [getContentBounds] does arithmetic on the
    untouched accumulators. *)

From Stdlib Require Import Reals Lra Lia List String Bool Permutation.
Import ListNotations.

Open Scope R_scope.

(** ** Extended numbers *)

Module JsNum.

Inductive jsnum : Type :=
| NaN
| NInf
| PInf
| Fin (r : R).

(** [Math.min(a, b)] *)
Definition min (a b : jsnum) : jsnum :=
  match a, b with
  | NaN, _ | _, NaN => NaN
  | NInf, _ | _, NInf => NInf
  | PInf, v | v, PInf => v
  | Fin u, Fin v => Fin (Rmin u v)
  end.

(** [Math.max(a, b)] *)
Definition max (a b : jsnum) : jsnum :=
  match a, b with
  | NaN, _ | _, NaN => NaN
  | PInf, _ | _, PInf => PInf
  | NInf, v | v, NInf => v
  | Fin u, Fin v => Fin (Rmax u v)
  end.

(** [a + b] *)
Definition add (a b : jsnum) : jsnum :=
  match a, b with
  | NaN, _ | _, NaN => NaN
  | PInf, NInf | NInf, PInf => NaN
  | PInf, _ | _, PInf => PInf
  | NInf, _ | _, NInf => NInf
  | Fin u, Fin v => Fin (u + v)
  end.

(** [- a] *)
Definition neg (a : jsnum) : jsnum :=
  match a with
  | NaN => NaN
  | NInf => PInf
  | PInf => NInf
  | Fin u => Fin (- u)
  end.

(** [a - b] *)
Definition sub (a b : jsnum) : jsnum := add a (neg b).

Definition is_finite (a : jsnum) : Prop :=
  match a with Fin _ => True | _ => False end.

End JsNum.

Import JsNum.

(** ** Lineage data *)

(** [table.position]: [{x, y}] in content space *)
Record point := mkPoint { pos_x : R; pos_y : R }.

(** A table of [lineageData.tables].  [position] and [columns] may be
    missing: the code guards both ([table?.position], [table.columns?.length
    || 0], [table.columns || []]). *)
Record table := mkTable {
  id : string;
  name : string;
  type : string;
  position : option point;
  columns : option (list string)
}.

Record endpoint := mkEndpoint { ep_table : string; ep_column : string }.

(** A connection of [lineageData.connections]: [{from: {table, column},
    to: {table, column}}]. *)
Record connection := mkConnection { from : endpoint; to : endpoint }.

(** [arr.includes(s)] on an array of strings *)
Definition includes (arr : list string) (s : string) : bool :=
  existsb (String.eqb s) arr.

(** ** Geometry of a table box *)

(** [const width = 240] *)
Definition tableWidth : R := 240.

(** [(table.columns?.length || 0)] *)
Definition columnCount (t : table) : nat :=
  match columns t with
  | Some cs => List.length cs
  | None => 0%nat
  end.

(** [expandedTables.includes(table.id)
      ? Math.max(120, (table.columns?.length || 0) * 20 + 60) : 80] *)
Definition tableHeight (expandedTables : list string) (t : table) : R :=
  if includes expandedTables (id t)
  then Rmax 120 (INR (columnCount t) * 20 + 60)
  else 80.

(** ** The bounds scan shared by [getContentBounds] and [fitToView]

    Both functions contain the same [tables.forEach] loop over the four
    accumulators [minX], [minY], [maxX], [maxY]. *)

Record extent := mkExtent {
  minX : jsnum; minY : jsnum; maxX : jsnum; maxY : jsnum
}.

(** [let minX = Infinity, minY = Infinity, maxX = -Infinity, maxY = -Infinity] *)
Definition extent0 : extent := mkExtent PInf PInf NInf NInf.

(** One iteration of the [forEach] body. *)
Definition scanTable (expandedTables : list string) (acc : extent) (t : table)
  : extent :=
  match position t with
  | None => acc                                   (* if (!table?.position) return; *)
  | Some p =>
      let x := pos_x p in
      let y := pos_y p in
      let width := tableWidth in
      let height := tableHeight expandedTables t in
      mkExtent (JsNum.min (minX acc) (Fin x))
               (JsNum.min (minY acc) (Fin y))
               (JsNum.max (maxX acc) (Fin (x + width)))
               (JsNum.max (maxY acc) (Fin (y + height)))
  end.

Definition scanTables (expandedTables : list string) (tables : list table)
  : extent :=
  fold_left (scanTable expandedTables) tables extent0.

(** ** [getContentBounds] *)

Record contentBounds := mkContentBounds {
  cb_width : jsnum; cb_height : jsnum;
  cb_minX : jsnum; cb_minY : jsnum; cb_maxX : jsnum; cb_maxY : jsnum
}.

(** The literal of the early return
    [{ width: 800, height: 600, minX: 0, minY: 0, maxX: 800, maxY: 600 }]. *)
Definition defaultBounds : contentBounds :=
  mkContentBounds (Fin 800) (Fin 600) (Fin 0) (Fin 0) (Fin 800) (Fin 600).

Definition getContentBounds (expandedTables : list string)
  (tables : list table) : contentBounds :=
  match tables with
  | [] => defaultBounds         (* if (!tables || tables.length === 0) return {...} *)
  | _ =>
      let e := scanTables expandedTables tables in
      let padding := Fin 100 in
      mkContentBounds
        (add (sub (maxX e) (minX e)) (Fin (100 * 2)))   (* width *)
        (add (sub (maxY e) (minY e)) (Fin (100 * 2)))   (* height *)
        (sub (minX e) padding)
        (sub (minY e) padding)
        (add (maxX e) padding)
        (add (maxY e) padding)
  end.

(** ** The viewport transform and its handlers *)

Record transform := mkTransform { tx : R; ty : R; scale : R }.

(** [useState({ x: 0, y: 0, scale: 1 })] *)
Definition initialTransform : transform := mkTransform 0 0 1.

(** What [svgRef.current.getBoundingClientRect()] gives. *)
Record domRect := mkRect {
  rect_left : R; rect_top : R; rect_width : R; rect_height : R
}.

Record wheelEvent := mkWheel {
  wheel_clientX : R; wheel_clientY : R; deltaY : R
}.

Definition handleWheel (t : transform) (rect : domRect) (e : wheelEvent)
  : transform :=
  let mouseX := wheel_clientX e - rect_left rect in
  let mouseY := wheel_clientY e - rect_top rect in
  let delta := - deltaY e / 1000 in
  let scaleFactor := exp delta in
  let newScale := Rmax (1/10) (Rmin 3 (scale t * scaleFactor)) in
  let scaleRatio := newScale / scale t in
  let newX := tx t - (mouseX - tx t) * (scaleRatio - 1) in
  let newY := ty t - (mouseY - ty t) * (scaleRatio - 1) in
  mkTransform newX newY newScale.

(** [rect] is [svgRef.current?.getBoundingClientRect()]: [None] when the ref
    is not attached, and then nothing is set. *)
Definition zoomIn (t : transform) (rect : option domRect) : transform :=
  let newScale := Rmin 3 (scale t * (13/10)) in
  match rect with
  | Some rect =>
      let centerX := rect_width rect / 2 in
      let centerY := rect_height rect / 2 in
      let scaleRatio := newScale / scale t in
      mkTransform (tx t - (centerX - tx t) * (scaleRatio - 1))
                  (ty t - (centerY - ty t) * (scaleRatio - 1))
                  newScale
  | None => t
  end.

Definition zoomOut (t : transform) (rect : option domRect) : transform :=
  let newScale := Rmax (1/10) (scale t / (13/10)) in
  match rect with
  | Some rect =>
      let centerX := rect_width rect / 2 in
      let centerY := rect_height rect / 2 in
      let scaleRatio := newScale / scale t in
      mkTransform (tx t - (centerX - tx t) * (scaleRatio - 1))
                  (ty t - (centerY - ty t) * (scaleRatio - 1))
                  newScale
  | None => t
  end.

Definition resetView : transform := mkTransform 0 0 1.

(** [const padding = 60] of [fitToView] *)
Definition fitPadding : R := 60.

(** The arithmetic of [fitToView] below the guard [minX === Infinity],
    on the four (then finite) accumulators. *)
Definition fitTransform (containerWidth containerHeight : R)
  (minX minY maxX maxY : R) : transform :=
  let contentWidth := maxX - minX in
  let contentHeight := maxY - minY in
  let padding := fitPadding in
  let availableWidth := containerWidth - padding * 2 in
  let availableHeight := containerHeight - padding * 2 in
  let scaleX := availableWidth / contentWidth in
  let scaleY := availableHeight / contentHeight in
  let optimalScale := Rmin scaleX scaleY in
  let optimalScale := Rmax (15/100) (Rmin optimalScale (9/10)) in
  let scaledContentWidth := contentWidth * optimalScale in
  let scaledContentHeight := contentHeight * optimalScale in
  let x := (containerWidth - scaledContentWidth) / 2 - minX * optimalScale in
  let y := (containerHeight - scaledContentHeight) / 2 - minY * optimalScale in
  let finalX := Rmax x (padding - minX * optimalScale) in
  let finalY := Rmax y (padding - minY * optimalScale) in
  mkTransform finalX finalY optimalScale.

(** [fitToView(tables)]: the transform handed to [setTransform], or [None]
    on each of the early returns.  [rect] is [None] when [svgRef.current]
    is not set.  After the guard [minX === Infinity] the four accumulators
    are finite (lemma [scanTables_cases]), so the last branch of the match
    is never taken. *)
Definition fitToView (expandedTables : list string) (tables : list table)
  (rect : option domRect) : option transform :=
  match tables, rect with
  | [], _ => None
  | _, None => None
  | _, Some rect =>
      let containerWidth := rect_width rect in
      let containerHeight := rect_height rect in
      if Req_dec_T containerWidth 0 then None
      else if Req_dec_T containerHeight 0 then None
      else
        let e := scanTables expandedTables tables in
        match minX e, minY e, maxX e, maxY e with
        | PInf, _, _, _ => None                  (* if (minX === Infinity) return; *)
        | Fin minX, Fin minY, Fin maxX, Fin maxY =>
            Some (fitTransform containerWidth containerHeight
                               minX minY maxX maxY)
        | _, _, _, _ => None
        end
  end.

(** ** Expand / collapse *)

(** The updater passed to [setExpandedTables] in [toggleTable]. *)
Definition toggleTable (prev : list string) (tableId : string) : list string :=
  let isExpanded := includes prev tableId in
  if isExpanded
  then filter (fun id => negb (String.eqb id tableId)) prev
  else prev ++ [tableId].

(** ** The component state and its events

    The state held by the [useState] hooks of the component that the
    handlers read or write. *)

Record mouseEvent := mkMouse { button : nat; clientX : R; clientY : R }.

Record viewState := mkViewState {
  st_transform : transform;
  st_isDragging : bool;
  st_dragStart : R * R;
  st_transformStart : R * R;
  st_expandedTables : list string;
  st_selectedColumn : string
}.

Definition initialState : viewState :=
  mkViewState initialTransform false (0, 0) (0, 0) [] "customer_id".

Definition setTransform (s : viewState) (t : transform) : viewState :=
  mkViewState t (st_isDragging s) (st_dragStart s) (st_transformStart s)
              (st_expandedTables s) (st_selectedColumn s).

Definition handleMouseDown (s : viewState) (rect : domRect) (e : mouseEvent)
  : viewState :=
  if Nat.eqb (button e) 0 then
    mkViewState (st_transform s) true
                (clientX e - rect_left rect, clientY e - rect_top rect)
                (tx (st_transform s), ty (st_transform s))
                (st_expandedTables s) (st_selectedColumn s)
  else s.

(** [svgRef.current] may be unset, hence the optional [rect]. *)
Definition handleMouseMove (s : viewState) (rect : option domRect)
  (e : mouseEvent) : viewState :=
  match st_isDragging s, rect with
  | true, Some rect =>
      let currentX := clientX e - rect_left rect in
      let currentY := clientY e - rect_top rect in
      let deltaX := currentX - fst (st_dragStart s) in
      let deltaY := currentY - snd (st_dragStart s) in
      let prev := st_transform s in
      setTransform s (mkTransform (fst (st_transformStart s) + deltaX)
                                  (snd (st_transformStart s) + deltaY)
                                  (scale prev))
  | _, _ => s
  end.

Definition handleMouseUp (s : viewState) : viewState :=
  mkViewState (st_transform s) false (st_dragStart s) (st_transformStart s)
              (st_expandedTables s) (st_selectedColumn s).

(** Everything that can happen to the component.  A fit carries the table
    list and the expanded list its closure captured (the deferred calls of
    the data load and of [toggleTable] run closures created earlier);
    [Loaded] is the arrival of the lineage data. *)
Inductive event : Type :=
| MouseDown (rect : domRect) (e : mouseEvent)
| MouseMove (rect : option domRect) (e : mouseEvent)
| MouseUp
| Wheel (rect : domRect) (e : wheelEvent)
| ZoomInClick (rect : option domRect)
| ZoomOutClick (rect : option domRect)
| Fit (expandedTables : list string) (tables : list table)
      (rect : option domRect)
| Reset
| Toggle (tableId : string)
| SelectColumn (column : string)
| Loaded (tables : list table).

Definition firstColumn (tables : list table) : option string :=
  match tables with
  | t :: _ =>
      match columns t with
      | Some (c :: _) => Some c
      | _ => None
      end
  | [] => None
  end.

Definition step (s : viewState) (ev : event) : viewState :=
  match ev with
  | MouseDown rect e => handleMouseDown s rect e
  | MouseMove rect e => handleMouseMove s rect e
  | MouseUp => handleMouseUp s
  | Wheel rect e => setTransform s (handleWheel (st_transform s) rect e)
  | ZoomInClick rect => setTransform s (zoomIn (st_transform s) rect)
  | ZoomOutClick rect => setTransform s (zoomOut (st_transform s) rect)
  | Fit expandedTables tables rect =>
      match fitToView expandedTables tables rect with
      | Some t => setTransform s t
      | None => s
      end
  | Reset => setTransform s resetView
  | Toggle tableId =>
      mkViewState (st_transform s) (st_isDragging s) (st_dragStart s)
                  (st_transformStart s)
                  (toggleTable (st_expandedTables s) tableId)
                  (st_selectedColumn s)
  | SelectColumn c =>
      mkViewState (st_transform s) (st_isDragging s) (st_dragStart s)
                  (st_transformStart s) (st_expandedTables s) c
  | Loaded tables =>
      match tables with
      | [] => s
      | _ =>
          mkViewState (st_transform s) (st_isDragging s) (st_dragStart s)
                      (st_transformStart s) (map id tables)
                      (match firstColumn tables with
                       | Some c => c
                       | None => st_selectedColumn s
                       end)
      end
  end.

Definition run (s : viewState) (evs : list event) : viewState :=
  fold_left step evs s.

Inductive reachable : viewState -> Prop :=
| reach_init : reachable initialState
| reach_step s ev : reachable s -> reachable (step s ev).

(** ** Coordinate mapping: the [translate(x, y) scale(s)] of the scene *)

Definition contentToScreen (t : transform) (p : R * R) : R * R :=
  (fst p * scale t + tx t, snd p * scale t + ty t).

Definition screenToContent (t : transform) (p : R * R) : R * R :=
  ((fst p - tx t) / scale t, (snd p - ty t) / scale t).

(** ** Rendering of one frame

    The callbacks of [lineageData.connections.map] and
    [lineageData.tables.map].  A property read on [undefined] throws a
    [TypeError], which aborts the whole render. *)

Inductive result (A : Type) : Type :=
| Ok (a : A)
| TypeError.
Arguments Ok {A} a.
Arguments TypeError {A}.

Definition bind {A B} (r : result A) (k : A -> result B) : result B :=
  match r with
  | Ok a => k a
  | TypeError => TypeError
  end.

Notation "x <- c1 ;; c2" := (bind c1 (fun x => c2))
  (at level 61, c1 at next level, right associativity).

Fixpoint mapM {A B} (f : A -> result B) (l : list A) : result (list B) :=
  match l with
  | [] => Ok []
  | a :: l' => b <- f a ;; bs <- mapM f l' ;; Ok (b :: bs)
  end.

(** [tbl.position.x] and [tbl.position.y] on a table that may lack
    [position] *)
Definition positionOf (t : table) : result point :=
  match position t with
  | Some p => Ok p
  | None => TypeError
  end.

(** The numbers of the path string
    [M fromX fromY C controlX1 fromY controlX2 toY toX toY]. *)
Record pathData := mkPath {
  path_start : R * R;
  path_control1 : R * R;
  path_control2 : R * R;
  path_end : R * R
}.

Definition getConnectionPath (fromTable toTable : table) : result pathData :=
  fp <- positionOf fromTable ;;
  tp <- positionOf toTable ;;
  let fromX := pos_x fp + 240 in
  let fromY := pos_y fp + 40 in
  let toX := pos_x tp in
  let toY := pos_y tp + 40 in
  let distance := Rabs (toX - fromX) in
  let controlOffset := Rmin (Rmax (distance * (4/10)) 80) 200 in
  let controlX1 := fromX + controlOffset in
  let controlX2 := toX - controlOffset in
  Ok (mkPath (fromX, fromY) (controlX1, fromY) (controlX2, toY) (toX, toY)).

(** [conn.from.column === selectedColumn || conn.to.column === selectedColumn] *)
Definition isHighlighted (selectedColumn : string) (conn : connection) : bool :=
  String.eqb (ep_column (from conn)) selectedColumn
  || String.eqb (ep_column (to conn)) selectedColumn.

(** What one connection draws: the [<path>], its highlight and, when
    highlighted, the centre of the [<circle>]. *)
Record drawnConnection := mkDrawn {
  dc_path : pathData;
  dc_highlighted : bool;
  dc_marker : option (R * R)
}.

(** [lineageData.tables?.find(t => t?.id === tableId)] *)
Definition findTable (tables : list table) (tableId : string) : option table :=
  find (fun t => String.eqb (id t) tableId) tables.

(** The callback of [connections.map]; [Ok None] is [return null]. *)
Definition renderConnection (tables : list table) (selectedColumn : string)
  (conn : connection) : result (option drawnConnection) :=
  let fromTable := findTable tables (ep_table (from conn)) in
  let toTable := findTable tables (ep_table (to conn)) in
  match fromTable, toTable with
  | Some fromTable, Some toTable =>
      let isHighlighted := isHighlighted selectedColumn conn in
      path <- getConnectionPath fromTable toTable ;;
      marker <- (if isHighlighted then
                   fp <- positionOf fromTable ;;
                   tp <- positionOf toTable ;;
                   Ok (Some ((pos_x fp + 240 + pos_x tp) / 2,
                             (pos_y fp + 40 + pos_y tp + 40) / 2))
                 else Ok None) ;;
      Ok (Some (mkDrawn path isHighlighted marker))
  | _, _ => Ok None                       (* if (!fromTable || !toTable) return null; *)
  end.

Definition renderConnections (tables : list table) (selectedColumn : string)
  (connections : list connection) : result (list (option drawnConnection)) :=
  mapM (renderConnection tables selectedColumn) connections.

(** [isColumnHighlighted(tableId, column)] *)
Definition isColumnHighlighted (connections : list connection)
  (selectedColumn : string) (tableId column : string) : bool :=
  existsb (fun conn =>
             (String.eqb (ep_table (from conn)) tableId
              && String.eqb (ep_column (from conn)) column)
             || (String.eqb (ep_table (to conn)) tableId
                 && String.eqb (ep_column (to conn)) column))
          connections
  && String.eqb column selectedColumn.

Record drawnRow := mkRow {
  row_column : string; row_y : R; row_highlighted : bool
}.

Record drawnTable := mkDrawnTable {
  dt_id : string;
  dt_x : R; dt_y : R; dt_width : R; dt_height : R;
  dt_expanded : bool;
  dt_rows : list drawnRow
}.

Fixpoint renderRows (connections : list connection) (selectedColumn : string)
  (t : table) (p : point) (colIndex : nat) (cols : list string)
  : list drawnRow :=
  match cols with
  | [] => []
  | column :: rest =>
      mkRow column (pos_y p + 55 + INR colIndex * 20)
            (isColumnHighlighted connections selectedColumn (id t) column)
      :: renderRows connections selectedColumn t p (S colIndex) rest
  end.

(** The callback of [tables.map]; [None] is [return null]. *)
Definition renderTable (expandedTables : list string)
  (connections : list connection) (selectedColumn : string) (t : table)
  : option drawnTable :=
  match position t with
  | None => None
  | Some p =>
      let isExpanded := includes expandedTables (id t) in
      let tableHeight := tableHeight expandedTables t in
      Some (mkDrawnTable (id t) (pos_x p) (pos_y p) 240 tableHeight isExpanded
              (if isExpanded
               then renderRows connections selectedColumn t p 0
                      (match columns t with Some cs => cs | None => [] end)
               else []))
  end.

(** The content of the scene's [<g transform=...>]. *)
Definition renderScene (tables : list table) (connections : list connection)
  (expandedTables : list string) (selectedColumn : string)
  : result (list (option drawnConnection) * list (option drawnTable)) :=
  conns <- renderConnections tables selectedColumn connections ;;
  Ok (conns, map (renderTable expandedTables connections selectedColumn) tables).

(** ** The zoom controls of the toolbar *)

(** [Math.round(x)]: the nearest integer, halves upwards. *)
Definition jsRound (x : R) : Z := Int_part (x + 1/2).

(** The label between the two zoom buttons,
    [{Math.round(transform.scale * 100)}%]. *)
Definition zoomLabel (T : transform) : Z := jsRound (scale T * 100).

(** [disabled={transform.scale <= 0.1}] of the zoom-out button *)
Definition zoomOutDisabled (T : transform) : bool :=
  if Rle_dec (scale T) (1/10) then true else false.

(** [disabled={transform.scale >= 3}] of the zoom-in button *)
Definition zoomInDisabled (T : transform) : bool :=
  if Rle_dec 3 (scale T) then true else false.

(** ** The agent log of [DataIntelligencePlatform]

    Every three seconds an interval appends one entry:
    [setAgentLogs(prev => [...prev.slice(-9), {...}])]. *)

Record agentLog := mkAgentLog {
  log_id : Z;                      (* Date.now() *)
  log_agent : option string;       (* agentNames[...], undefined off the array *)
  log_activity : option string;    (* activities[...] *)
  log_timestamp : string           (* new Date().toLocaleTimeString() *)
}.

Definition agentNames : list string :=
  ["Data Profiler"; "Quality Validator"; "Lineage Tracker"]%string.

Definition activities : list string :=
  ["Profiling table"; "Validating data"; "Tracking lineage";
   "Detecting anomalies"]%string.

(** [arr.slice(-n)]: the last [n] elements, the whole array when it is
    shorter. *)
Definition sliceLast {A} (n : nat) (arr : list A) : list A :=
  skipn (List.length arr - n) arr.

(** [arr[Math.floor(random * arr.length)]]; [random] is what
    [Math.random()] returned. *)
Definition pickRandom (arr : list string) (random : R) : option string :=
  let i := Int_part (random * INR (List.length arr)) in
  if Z.ltb i 0 then None else nth_error arr (Z.to_nat i).

(** The updater of the interval, given what [Date.now()], the two
    [Math.random()] calls and [toLocaleTimeString()] returned. *)
Definition appendAgentLog (prev : list agentLog) (now : Z) (random1 random2 : R)
  (time : string) : list agentLog :=
  sliceLast 9 prev
  ++ [mkAgentLog now (pickRandom agentNames random1)
                 (pickRandom activities random2) time].

(** One tick of the interval. *)
Record logTick := mkTick {
  tick_now : Z; tick_random1 : R; tick_random2 : R; tick_time : string
}.

Definition runAgentLog (ticks : list logTick) : list agentLog :=
  fold_left (fun prev k =>
               appendAgentLog prev (tick_now k) (tick_random1 k)
                              (tick_random2 k) (tick_time k))
            ticks [].

(** ** Vocabulary of the properties *)

Definition hasPosition (t : table) : Prop := position t <> None.

(** The box of table [t] at [p] lies inside the rectangle [a b c d]. *)
Definition boxInside (ex : list string) (a b c d : R) (t : table) (p : point)
  : Prop :=
  a <= pos_x p /\ pos_x p + tableWidth <= c /\
  b <= pos_y p /\ pos_y p + tableHeight ex t <= d.

(** The screen-space box of a positioned table: its top-left and its
    bottom-right corner through [contentToScreen]. *)
Definition nodeScreenBox (T : transform) (ex : list string) (t : table)
  (p : point) : (R * R) * (R * R) :=
  (contentToScreen T (pos_x p, pos_y p),
   contentToScreen T (pos_x p + tableWidth, pos_y p + tableHeight ex t)).

(** The box lies in the viewport shrunk by the fit margin on every side. *)
Definition withinFitMargin (rect : domRect) (box : (R * R) * (R * R)) : Prop :=
  fitPadding <= fst (fst box) /\
  fst (snd box) <= rect_width rect - fitPadding /\
  fitPadding <= snd (fst box) /\
  snd (snd box) <= rect_height rect - fitPadding.

Definition scaleInRange (T : transform) : Prop := 1/10 <= scale T <= 3.

(** An edge one of whose endpoints names no table of the list. *)
Definition staleEdge (tables : list table) (conn : connection) : Prop :=
  (forall t, In t tables -> id t <> ep_table (from conn))
  \/ (forall t, In t tables -> id t <> ep_table (to conn)).

(** ** Sample data: the scenarios of the specification and a few others *)

(** Two collapsed tables 10000 apart in an 800 x 600 viewport. *)
Definition farLeft : table :=
  mkTable "t1" "orders" "source" (Some (mkPoint 0 0)) (Some ["id"%string]).

Definition farRight : table :=
  mkTable "t2" "report" "target" (Some (mkPoint 10000 0)) (Some ["id"%string]).

Definition viewport800x600 : domRect := mkRect 0 0 800 600.

(** Scenario A of the specification: tables at (0,0) and (400,0), both
    collapsed, in an 800 x 600 viewport. *)
Definition scenarioA_left : table :=
  mkTable "a" "a" "source" (Some (mkPoint 0 0)) None.

Definition scenarioA_right : table :=
  mkTable "b" "b" "target" (Some (mkPoint 400 0)) None.

(** A table that arrived without a [position]. *)
Definition unplaced : table := mkTable "t1" "orders" "source" None (Some ["id"%string]).

(** Scenario D of the specification: [deltaY = -1000] on the initial
    transform, pointer at the centre of the viewport. *)
Definition scenarioD_wheel : wheelEvent := mkWheel 400 300 (-1000).

(** Scenarios B and C of the specification: two placed tables, an edge
    [table1.col_a -> table2.col_a] and an edge into a table id that does
    not exist. *)
Definition table1 : table :=
  mkTable "table1" "orders" "source" (Some (mkPoint 0 0))
          (Some ["col_a"; "col_b"]%string).

Definition table2 : table :=
  mkTable "table2" "report" "target" (Some (mkPoint 400 0))
          (Some ["col_a"]%string).

Definition edgeB : connection :=
  mkConnection (mkEndpoint "table1" "col_a") (mkEndpoint "table2" "col_a").

Definition edgeC : connection :=
  mkConnection (mkEndpoint "table1" "col_a") (mkEndpoint "missing" "col_a").

(** What [edgeB] draws between [table1] and [table2], for a given
    highlight flag. *)
Definition edgeB_drawn (highlighted : bool) : drawnConnection :=
  mkDrawn (mkPath (0 + 240, 0 + 40) (0 + 240 + 80, 0 + 40)
                  (400 - 80, 0 + 40) (400, 0 + 40))
          highlighted
          (if highlighted
           then Some ((0 + 240 + 400) / 2, (0 + 40 + 0 + 40) / 2)
           else None).

(** The centre of the viewport, the anchor of the zoom buttons. *)
Definition viewCenter (rect : domRect) : R * R :=
  (rect_width rect / 2, rect_height rect / 2).

(** The pointer position of a mouse event relative to the svg. *)
Definition pointerIn (rect : domRect) (e : mouseEvent) : R * R :=
  (clientX e - rect_left rect, clientY e - rect_top rect).

Definition isMouseMove (ev : event) : Prop :=
  match ev with MouseMove _ _ => True | _ => False end.

(** The connection has [(tableId, column)] as one of its endpoints. *)
Definition touches (conn : connection) (tableId column : string) : Prop :=
  (ep_table (from conn) = tableId /\ ep_column (from conn) = column)
  \/ (ep_table (to conn) = tableId /\ ep_column (to conn) = column).

(** The log entry a tick appends. *)
Definition entryOf (k : logTick) : agentLog :=
  mkAgentLog (tick_now k) (pickRandom agentNames (tick_random1 k))
             (pickRandom activities (tick_random2 k)) (tick_time k).

(** A drawn row, and a drawn table, with the highlight of the rows
    erased: what is left is the geometry, the expand state and the column
    names. *)
Definition clearRowHighlight (r : drawnRow) : drawnRow :=
  mkRow (row_column r) (row_y r) false.

Definition clearHighlights (d : drawnTable) : drawnTable :=
  mkDrawnTable (dt_id d) (dt_x d) (dt_y d) (dt_width d) (dt_height d)
               (dt_expanded d) (map clearRowHighlight (dt_rows d)).

(** * Properties *)

(** ** The bounds scan *)

Lemma tableHeight_ge_80 ex t : 80 <= tableHeight ex t.
Proof.
  unfold tableHeight. destruct (includes ex (id t)); [|lra].
  pose proof (Rmax_l 120 (INR (columnCount t) * 20 + 60)). lra.
Qed.

Lemma scanTable_skip ex acc t :
  position t = None -> scanTable ex acc t = acc.
Proof. unfold scanTable. intros ->. reflexivity. Qed.

Lemma scanTable_first ex t p :
  position t = Some p ->
  scanTable ex extent0 t
  = mkExtent (Fin (pos_x p)) (Fin (pos_y p))
             (Fin (pos_x p + tableWidth)) (Fin (pos_y p + tableHeight ex t)).
Proof. unfold scanTable. intros ->. reflexivity. Qed.

Lemma scanTable_next ex a b c d t p :
  position t = Some p ->
  scanTable ex (mkExtent (Fin a) (Fin b) (Fin c) (Fin d)) t
  = mkExtent (Fin (Rmin a (pos_x p))) (Fin (Rmin b (pos_y p)))
             (Fin (Rmax c (pos_x p + tableWidth)))
             (Fin (Rmax d (pos_y p + tableHeight ex t))).
Proof. unfold scanTable. intros ->. reflexivity. Qed.

Lemma scan_from_finite ex tables : forall a b c d,
  exists a' b' c' d',
    fold_left (scanTable ex) tables (mkExtent (Fin a) (Fin b) (Fin c) (Fin d))
    = mkExtent (Fin a') (Fin b') (Fin c') (Fin d')
    /\ a' <= a /\ b' <= b /\ c <= c' /\ d <= d'
    /\ forall t p, In t tables -> position t = Some p ->
                   boxInside ex a' b' c' d' t p.
Proof.
  induction tables as [|t tables IH]; intros a b c d; simpl.
  - exists a, b, c, d. split; [reflexivity|]. do 4 (split; [lra|]). intros ? ? [].
  - destruct (position t) as [p|] eqn:Hp.
    + rewrite (scanTable_next _ _ _ _ _ _ _ Hp).
      destruct (IH (Rmin a (pos_x p)) (Rmin b (pos_y p))
                   (Rmax c (pos_x p + tableWidth))
                   (Rmax d (pos_y p + tableHeight ex t)))
        as (a' & b' & c' & d' & Hf & Ha & Hb & Hc & Hd & Hin).
      exists a', b', c', d'. rewrite Hf.
      pose proof (Rmin_l a (pos_x p)). pose proof (Rmin_r a (pos_x p)).
      pose proof (Rmin_l b (pos_y p)). pose proof (Rmin_r b (pos_y p)).
      pose proof (Rmax_l c (pos_x p + tableWidth)).
      pose proof (Rmax_r c (pos_x p + tableWidth)).
      pose proof (Rmax_l d (pos_y p + tableHeight ex t)).
      pose proof (Rmax_r d (pos_y p + tableHeight ex t)).
      split; [reflexivity|]. do 4 (split; [lra|]).
      intros t' p' [<-|Hin'] Hp'.
      * rewrite Hp in Hp'. injection Hp' as <-. unfold boxInside. lra.
      * apply Hin; assumption.
    + rewrite (scanTable_skip _ _ _ Hp).
      destruct (IH a b c d) as (a' & b' & c' & d' & Hf & Ha & Hb & Hc & Hd & Hin).
      exists a', b', c', d'. rewrite Hf. split; [reflexivity|].
      do 4 (split; [lra|]).
      intros t' p' [<-|Hin'] Hp'; [congruence|]. apply Hin; assumption.
Qed.

(** The scan either never met a positioned table and still holds the four
    infinities, or all four accumulators are finite, enclose every
    positioned table's box and span at least one box. *)
Lemma scanTables_cases ex tables :
  (Forall (fun t => position t = None) tables
   /\ scanTables ex tables = extent0)
  \/ (Exists hasPosition tables
      /\ exists a b c d,
           scanTables ex tables = mkExtent (Fin a) (Fin b) (Fin c) (Fin d)
           /\ a + 240 <= c /\ b + 80 <= d
           /\ forall t p, In t tables -> position t = Some p ->
                          boxInside ex a b c d t p).
Proof.
  unfold scanTables.
  induction tables as [|t tables IH]; simpl.
  - left. split; [constructor | reflexivity].
  - destruct (position t) as [p|] eqn:Hp.
    + rewrite (scanTable_first _ _ _ Hp). right. split.
      { apply Exists_cons_hd. unfold hasPosition. congruence. }
      destruct (scan_from_finite ex tables (pos_x p) (pos_y p)
                  (pos_x p + tableWidth) (pos_y p + tableHeight ex t))
        as (a & b & c & d & Hf & Ha & Hb & Hc & Hd & Hin).
      exists a, b, c, d. rewrite Hf.
      pose proof (tableHeight_ge_80 ex t). unfold tableWidth in *.
      split; [reflexivity|]. do 2 (split; [lra|]).
      intros t' p' [<-|Hin'] Hp'.
      * rewrite Hp in Hp'. injection Hp' as <-. unfold boxInside, tableWidth. lra.
      * apply Hin; assumption.
    + rewrite (scanTable_skip _ _ _ Hp).
      destruct IH as [[Hall Hs]|[Hex (a & b & c & d & Hs & Hw & Hh & Hin)]].
      * left. split; [constructor; assumption | assumption].
      * right. split; [apply Exists_cons_tl; assumption|].
        exists a, b, c, d. do 3 (split; [assumption|]).
        intros t' p' [<-|Hin'] Hp'; [congruence|]. apply Hin; assumption.
Qed.

(** Splits every [Rmin] and [Rmax] of the goal into its two cases. *)
Ltac split_minmax :=
  unfold Rmin, Rmax in *;
  repeat match goal with
         | |- context [Rle_dec ?a ?b] => destruct (Rle_dec a b)
         | H : context [Rle_dec ?a ?b] |- _ => destruct (Rle_dec a b)
         end.

(** ** [fitToView] *)

Lemma fitToView_unpositioned ex tables rect :
  Forall (fun t => position t = None) tables ->
  fitToView ex tables rect = None.
Proof.
  intros Hall. unfold fitToView.
  destruct tables as [|t tables]; [reflexivity|].
  destruct rect as [rect|]; [|reflexivity].
  destruct (Req_dec_T (rect_width rect) 0); [reflexivity|].
  destruct (Req_dec_T (rect_height rect) 0); [reflexivity|].
  destruct (scanTables_cases ex (t :: tables))
    as [[_ ->]|[Hex _]]; [reflexivity|].
  exfalso. apply Exists_exists in Hex. destruct Hex as (t' & Hin & Hpos).
  rewrite Forall_forall in Hall. apply Hpos, Hall, Hin.
Qed.

Lemma fitToView_finite ex tables rect a b c d :
  rect_width rect <> 0 -> rect_height rect <> 0 ->
  scanTables ex tables = mkExtent (Fin a) (Fin b) (Fin c) (Fin d) ->
  fitToView ex tables (Some rect)
  = Some (fitTransform (rect_width rect) (rect_height rect) a b c d).
Proof.
  intros Hw Hh Hs. unfold fitToView.
  destruct tables as [|t tables]; [discriminate Hs|].
  destruct (Req_dec_T (rect_width rect) 0); [contradiction|].
  destruct (Req_dec_T (rect_height rect) 0); [contradiction|].
  rewrite Hs. reflexivity.
Qed.

(** Whatever [fitToView] sets has its scale inside the fit clamp. *)
Lemma fitTransform_scale w h a b c d :
  15/100 <= scale (fitTransform w h a b c d) <= 9/10.
Proof. unfold fitTransform; simpl. split_minmax; lra. Qed.

Lemma fitToView_scale ex tables rect T :
  fitToView ex tables rect = Some T -> 15/100 <= scale T <= 9/10.
Proof.
  unfold fitToView. intros H.
  destruct tables; [discriminate|]. destruct rect; [|discriminate].
  destruct (Req_dec_T _ _); [discriminate|].
  destruct (Req_dec_T _ _); [discriminate|].
  destruct (minX _); try discriminate.
  destruct (minY _); try discriminate.
  destruct (maxX _); try discriminate.
  destruct (maxY _); try discriminate.
  injection H as <-. apply fitTransform_scale.
Qed.

(** The left and top margins hold after every fit: this is what the two
    final [Math.max] are for. *)
Lemma fitTransform_origin w h a b c d :
  let T := fitTransform w h a b c d in
  fitPadding <= a * scale T + tx T /\ fitPadding <= b * scale T + ty T.
Proof.
  unfold fitTransform; simpl.
  set (s := Rmax (15/100) (Rmin (Rmin _ _) (9/10))).
  pose proof (Rmax_r ((w - (c - a) * s) / 2 - a * s) (fitPadding - a * s)).
  pose proof (Rmax_r ((h - (d - b) * s) / 2 - b * s) (fitPadding - b * s)).
  lra.
Qed.

Lemma fitTransform_contains w h a b c d :
  0 < c - a -> 0 < d - b ->
  15/100 <= Rmin ((w - fitPadding * 2) / (c - a)) ((h - fitPadding * 2) / (d - b)) ->
  let T := fitTransform w h a b c d in
  forall x0 y0 x1 y1,
    a <= x0 -> x1 <= c -> b <= y0 -> y1 <= d ->
    fitPadding <= x0 * scale T + tx T /\
    x1 * scale T + tx T <= w - fitPadding /\
    fitPadding <= y0 * scale T + ty T /\
    y1 * scale T + ty T <= h - fitPadding.
Proof.
  intros Hcw Hch Hfit T x0 y0 x1 y1 Hx0 Hx1 Hy0 Hy1.
  subst T. unfold fitTransform; simpl.
  set (m := Rmin ((w - fitPadding * 2) / (c - a))
                 ((h - fitPadding * 2) / (d - b))) in *.
  set (s := Rmax (15/100) (Rmin m (9/10))).
  assert (Hs : 15/100 <= s <= m) by (unfold s; split_minmax; lra).
  assert (Hsx : s * (c - a) <= w - fitPadding * 2).
  { replace (w - fitPadding * 2)
      with ((w - fitPadding * 2) / (c - a) * (c - a)) by (field; lra).
    apply Rmult_le_compat_r; [lra|].
    pose proof (Rmin_l ((w - fitPadding * 2) / (c - a))
                       ((h - fitPadding * 2) / (d - b))). fold m in H. lra. }
  assert (Hsy : s * (d - b) <= h - fitPadding * 2).
  { replace (h - fitPadding * 2)
      with ((h - fitPadding * 2) / (d - b) * (d - b)) by (field; lra).
    apply Rmult_le_compat_r; [lra|].
    pose proof (Rmin_r ((w - fitPadding * 2) / (c - a))
                       ((h - fitPadding * 2) / (d - b))). fold m in H. lra. }
  assert (0 <= (x0 - a) * s) by (apply Rmult_le_pos; lra).
  assert (0 <= (c - x1) * s) by (apply Rmult_le_pos; lra).
  assert (0 <= (y0 - b) * s) by (apply Rmult_le_pos; lra).
  assert (0 <= (d - y1) * s) by (apply Rmult_le_pos; lra).
  unfold fitPadding in *.
  split_minmax; lra.
Qed.

(** C2, as stated, fails: the content is 10240 wide, the fit ratio
    680 / 10240 is below the lower scale clamp, so the fit uses scale 0.15
    and the right table's box ends at x = 1596, far beyond 800 - 60. *)
Lemma fit_containment_counterexample :
  fitToView [] [farLeft; farRight] (Some viewport800x600)
  = Some (mkTransform 60 294 (15/100))
  /\ ~ withinFitMargin viewport800x600
         (nodeScreenBox (mkTransform 60 294 (15/100)) [] farRight
                        (mkPoint 10000 0)).
Proof.
  split.
  - assert (Hs : scanTables [] [farLeft; farRight]
                 = mkExtent (Fin 0) (Fin 0) (Fin 10240) (Fin 80)).
    { unfold scanTables, scanTable, tableHeight, tableWidth; simpl.
      f_equal; f_equal; split_minmax; lra. }
    rewrite (fitToView_finite [] _ viewport800x600 0 0 10240 80);
      [|simpl; lra|simpl; lra|exact Hs].
    unfold fitTransform, fitPadding; simpl.
    assert (Hm : Rmin ((800 - 60 * 2) / (10240 - 0)) ((600 - 60 * 2) / (80 - 0))
                 = 680 / 10240).
    { unfold Rmin. destruct (Rle_dec _ _); lra. }
    rewrite Hm.
    assert (Hc : Rmax (15/100) (Rmin (680 / 10240) (9/10)) = 15/100).
    { split_minmax; lra. }
    rewrite Hc. f_equal. f_equal; split_minmax; lra.
  - unfold withinFitMargin, nodeScreenBox, contentToScreen, tableWidth,
      fitPadding; simpl. lra.
Qed.

(** C2 (amended): on a viewport of non-zero size and a table list whose
    scan is finite (some table has a position), if the unclamped fit ratio
    [min(availableWidth / contentWidth, availableHeight / contentHeight)]
    is at least the lower scale clamp 0.15, then [fitToView] sets a
    transform under which the screen-space box of every positioned table
    lies in the viewport shrunk by the 60-pixel margin on every side. *)
Theorem fitToView_contains_when_ratio_ge_min_scale :
  forall ex tables rect a b c d,
    rect_width rect <> 0 -> rect_height rect <> 0 ->
    scanTables ex tables = mkExtent (Fin a) (Fin b) (Fin c) (Fin d) ->
    15/100 <= Rmin ((rect_width rect - fitPadding * 2) / (c - a))
                   ((rect_height rect - fitPadding * 2) / (d - b)) ->
    exists T,
      fitToView ex tables (Some rect) = Some T /\
      forall t p, In t tables -> position t = Some p ->
                  withinFitMargin rect (nodeScreenBox T ex t p).
Proof.
  intros ex tables rect a b c d Hw Hh Hs Hfit.
  exists (fitTransform (rect_width rect) (rect_height rect) a b c d).
  split; [apply fitToView_finite; assumption|].
  destruct (scanTables_cases ex tables)
    as [[_ H0]|[_ (a' & b' & c' & d' & Hs' & Hcw & Hch & Hin)]].
  { rewrite Hs in H0. discriminate. }
  rewrite Hs in Hs'. injection Hs' as <- <- <- <-.
  intros t p Ht Hp. destruct (Hin t p Ht Hp) as (Hx0 & Hx1 & Hy0 & Hy1).
  unfold withinFitMargin, nodeScreenBox, contentToScreen; simpl.
  apply fitTransform_contains; try assumption; lra.
Qed.

Lemma scenarioA_scan :
  scanTables [] [scenarioA_left; scenarioA_right]
  = mkExtent (Fin 0) (Fin 0) (Fin 640) (Fin 80).
Proof.
  unfold scanTables, scanTable, tableHeight, tableWidth; simpl.
  f_equal; f_equal; split_minmax; lra.
Qed.

Lemma fitToView_contains_witness :
  exists T,
    fitToView [] [scenarioA_left; scenarioA_right] (Some viewport800x600)
    = Some T /\
    forall t p, In t [scenarioA_left; scenarioA_right] ->
                position t = Some p ->
                withinFitMargin viewport800x600 (nodeScreenBox T [] t p).
Proof.
  apply (fitToView_contains_when_ratio_ge_min_scale
           [] [scenarioA_left; scenarioA_right] viewport800x600
           0 0 640 80).
  - simpl; lra.
  - simpl; lra.
  - exact scenarioA_scan.
  - unfold fitPadding; simpl. split_minmax; lra.
Defined.

(** C9: [fitToView] never divides by zero.  When some table has a
    position the scan ends with four finite accumulators, the content width
    [maxX - minX] is at least the table width 240 and the content height
    [maxY - minY] at least the collapsed height 80, hence both divisors of
    [fitTransform] are positive; when no table has a position [fitToView]
    returns before the division. *)
Theorem fitToView_divisors_positive :
  forall ex tables,
    (Exists hasPosition tables ->
     exists a b c d,
       scanTables ex tables = mkExtent (Fin a) (Fin b) (Fin c) (Fin d)
       /\ tableWidth <= c - a /\ 80 <= d - b
       /\ 0 < c - a /\ 0 < d - b
       /\ forall rect,
            rect_width rect <> 0 -> rect_height rect <> 0 ->
            fitToView ex tables (Some rect)
            = Some (fitTransform (rect_width rect) (rect_height rect) a b c d))
    /\ (Forall (fun t => position t = None) tables ->
        forall rect, fitToView ex tables rect = None).
Proof.
  intros ex tables. split.
  - intros Hex.
    destruct (scanTables_cases ex tables)
      as [[Hall _]|[_ (a & b & c & d & Hs & Hcw & Hch & _)]].
    + exfalso. apply Exists_exists in Hex. destruct Hex as (t & Hin & Hpos).
      rewrite Forall_forall in Hall. apply Hpos, Hall, Hin.
    + exists a, b, c, d. unfold tableWidth.
      split; [assumption|]. do 4 (split; [lra|]).
      intros rect Hw Hh. apply fitToView_finite; assumption.
  - intros Hall rect. apply fitToView_unpositioned; assumption.
Qed.

Lemma fitToView_divisors_positive_witness :
  (exists a b c d,
      scanTables [] [unplaced; scenarioA_right]
      = mkExtent (Fin a) (Fin b) (Fin c) (Fin d)
      /\ tableWidth <= c - a /\ 80 <= d - b /\ 0 < c - a /\ 0 < d - b
      /\ forall rect,
           rect_width rect <> 0 -> rect_height rect <> 0 ->
           fitToView [] [unplaced; scenarioA_right] (Some rect)
           = Some (fitTransform (rect_width rect) (rect_height rect) a b c d))
  /\ fitToView [] [unplaced] (Some viewport800x600) = None.
Proof.
  split.
  - apply (fitToView_divisors_positive [] [unplaced; scenarioA_right]).
    apply Exists_cons_tl, Exists_cons_hd. unfold hasPosition; simpl. discriminate.
  - apply (fitToView_divisors_positive [] [unplaced]).
    constructor; [reflexivity | constructor].
Defined.

(** ** [getContentBounds] *)

Lemma getContentBounds_empty ex : getContentBounds ex [] = defaultBounds.
Proof. reflexivity. Qed.

(** When the list is not empty but no table has a position, the scan leaves
    the four infinities and the function reports them, with width and
    height [-Infinity]. *)
Lemma getContentBounds_unpositioned ex t tables :
  Forall (fun t => position t = None) (t :: tables) ->
  getContentBounds ex (t :: tables)
  = mkContentBounds NInf NInf PInf PInf NInf NInf.
Proof.
  intros Hall. unfold getContentBounds.
  destruct (scanTables_cases ex (t :: tables)) as [[_ ->]|[Hex _]].
  - reflexivity.
  - exfalso. apply Exists_exists in Hex. destruct Hex as (t' & Hin & Hpos).
    rewrite Forall_forall in Hall. apply Hpos, Hall, Hin.
Qed.

(** C5 at the failing input: on the one-element list [[unplaced]], whose
    only table has no position, [getContentBounds] does not return the
    default bounds; its width and height are [-Infinity], not finite. *)
Theorem getContentBounds_unpositioned_not_default :
  getContentBounds [] [unplaced]
  = mkContentBounds NInf NInf PInf PInf NInf NInf
  /\ getContentBounds [] [unplaced] <> defaultBounds
  /\ ~ is_finite (cb_width (getContentBounds [] [unplaced]))
  /\ ~ is_finite (cb_height (getContentBounds [] [unplaced])).
Proof.
  assert (H : getContentBounds [] [unplaced]
              = mkContentBounds NInf NInf PInf PInf NInf NInf).
  { apply getContentBounds_unpositioned. constructor; [reflexivity|constructor]. }
  rewrite H. split; [reflexivity|]. split; [discriminate|].
  split; simpl; tauto.
Qed.

(** ** Bounds on [Math.exp]

    The wheel handler multiplies the scale by [exp(-deltaY / 1000)].  The
    value of [exp 1] is enclosed by squaring thirteen times an enclosure of
    [exp (1/8192)]. *)

Lemma exp_upper h : 0 <= h < 1 -> exp h <= / (1 - h).
Proof.
  intros Hh.
  assert (Hinv : exp h * exp (- h) = 1).
  { rewrite <- exp_plus. replace (h + - h) with 0 by lra. apply exp_0. }
  pose proof (exp_ineq1_le (- h)) as Hlow.
  pose proof (exp_pos h) as Hpos. pose proof (exp_pos (- h)) as Hneg.
  assert (Heq : exp h = / exp (- h)).
  { apply (Rmult_eq_reg_r (exp (- h))); [|lra]. rewrite Hinv. field. lra. }
  rewrite Heq. apply Rinv_le_contravar; lra.
Qed.

Lemma exp_double_bounds h h2 lo hi lo2 hi2 :
  h2 = 2 * h -> 0 <= lo -> lo <= exp h <= hi ->
  lo2 <= lo * lo -> hi * hi <= hi2 ->
  lo2 <= exp h2 <= hi2.
Proof.
  intros -> Hlo [Hl Hu] Hl2 Hu2.
  replace (2 * h) with (h + h) by lra. rewrite exp_plus.
  assert (lo * lo <= exp h * exp h) by (apply Rmult_le_compat; lra).
  assert (exp h * exp h <= hi * hi) by (apply Rmult_le_compat; lra).
  lra.
Qed.

Ltac square_bounds H :=
  match type of H with
  | ?lo <= exp ?h <= ?hi =>
      apply (exp_double_bounds h _ lo hi); [lra | lra | exact H | lra | lra]
  end.

Lemma exp_1_bounds : 2718/1000 < exp 1 < 2719/1000.
Proof.
  assert (H13 : 1000122070312/1000000000000 <= exp (1/8192)
                 <= 1000122085216/1000000000000).
  { split.
    - pose proof (exp_ineq1_le (1/8192)). lra.
    - pose proof (exp_upper (1/8192)). lra. }
  assert (H12 : 1000244155525/1000000000000 <= exp (1/4096)
                 <= 1000244185337/1000000000000)
    by square_bounds H13.
  assert (H11 : 1000488370661/1000000000000 <= exp (1/2048)
                 <= 1000488430301/1000000000000)
    by square_bounds H12.
  assert (H10 : 1000976979827/1000000000000 <= exp (1/1024)
                 <= 1000977099167/1000000000000)
    by square_bounds H11.
  assert (H9 : 1001954914143/1000000000000 <= exp (1/512)
                 <= 1001955153057/1000000000000)
    by square_bounds H10.
  assert (H8 : 1003913649975/1000000000000 <= exp (1/256)
                 <= 1003914128738/1000000000000)
    by square_bounds H9.
  assert (H7 : 1007842616606/1000000000000 <= exp (1/128)
                 <= 1007843577880/1000000000000)
    by square_bounds H8.
  assert (H6 : 1015746739847/1000000000000 <= exp (1/64)
                 <= 1015748677474/1000000000000)
    by square_bounds H7.
  assert (H5 : 1031741439509/1000000000000 <= exp (1/32)
                 <= 1031745375791/1000000000000)
    by square_bounds H6.
  assert (H4 : 1064490398000/1000000000000 <= exp (1/16)
                 <= 1064498520467/1000000000000)
    by square_bounds H5.
  assert (H3 : 1133139807434/1000000000000 <= exp (1/8)
                 <= 1133157100077/1000000000000)
    by square_bounds H4.
  assert (H2 : 1284005823191/1000000000000 <= exp (1/4)
                 <= 1284045013455/1000000000000)
    by square_bounds H3.
  assert (H1 : 1648670953988/1000000000000 <= exp (1/2)
                 <= 1648771596579/1000000000000)
    by square_bounds H2.
  assert (H0 : 2718115914523/1000000000000 <= exp 1
                 <= 2718447777686/1000000000000)
    by square_bounds H1.
  lra.
Qed.

(** ** The wheel handler *)

Lemma handleWheel_scale T rect e :
  1/10 <= scale (handleWheel T rect e) <= 3.
Proof. unfold handleWheel; simpl. split_minmax; lra. Qed.

Lemma scenarioD_scale :
  scale (handleWheel initialTransform viewport800x600 scenarioD_wheel) = exp 1.
Proof.
  unfold handleWheel, scenarioD_wheel, initialTransform; simpl.
  replace (- -1000 / 1000) with 1 by lra. rewrite Rmult_1_l.
  pose proof exp_1_bounds. split_minmax; lra.
Qed.

(** C4, as stated, fails on its scenario: the unclamped product is
    [e < 3], so the ceiling is not reached and the new scale is not 3. *)
Lemma wheel_scenarioD_counterexample :
  scale (handleWheel initialTransform viewport800x600 scenarioD_wheel) <> 3.
Proof. rewrite scenarioD_scale. pose proof exp_1_bounds. lra. Qed.

(** C4 (amended): for every wheel event the new scale is
    [clamp(oldScale * exp(-deltaY / 1000), 0.1, 3.0)]; a wheel event with
    [deltaY = -1000] at scale 1 has scale factor [e], between 2.718 and
    2.719, and the new scale is that same [e], left unclamped because it is
    below the ceiling 3. *)
Theorem handleWheel_scale_is_clamped_product :
  (forall T rect e,
      scale (handleWheel T rect e)
      = Rmax (1/10) (Rmin 3 (scale T * exp (- deltaY e / 1000))))
  /\ (forall x y rect cx cy,
         scale (handleWheel (mkTransform x y 1) rect (mkWheel cx cy (-1000)))
         = exp 1)
  /\ 2718/1000 < exp 1 < 2719/1000.
Proof.
  split; [reflexivity|]. split; [|exact exp_1_bounds].
  intros x y rect cx cy. unfold handleWheel; simpl.
  replace (- -1000 / 1000) with 1 by lra. rewrite Rmult_1_l.
  pose proof exp_1_bounds. split_minmax; lra.
Qed.

(** C3: zoom-to-point keeps the anchor.  For a transform whose scale is in
    [0.1, 3.0], the content point under the pointer before a wheel event is
    under the pointer again after it, whether or not the new scale was
    clamped. *)
Theorem handleWheel_preserves_anchor :
  forall T rect e,
    1/10 <= scale T <= 3 ->
    let s := (wheel_clientX e - rect_left rect,
              wheel_clientY e - rect_top rect) in
    contentToScreen (handleWheel T rect e) (screenToContent T s) = s.
Proof.
  intros T rect e Hs. unfold contentToScreen, screenToContent, handleWheel.
  simpl. f_equal; field; lra.
Qed.

(** A wheel event that runs into the ceiling: scale 2.5, [deltaY = -1000]. *)
Lemma handleWheel_preserves_anchor_witness :
  let T := mkTransform 40 (-25) (5/2) in
  scale (handleWheel T viewport800x600 scenarioD_wheel) = 3
  /\ contentToScreen (handleWheel T viewport800x600 scenarioD_wheel)
                     (screenToContent T (400 - 0, 300 - 0))
     = (400 - 0, 300 - 0).
Proof.
  split.
  - unfold handleWheel, scenarioD_wheel; simpl.
    replace (- -1000 / 1000) with 1 by lra.
    pose proof exp_1_bounds. split_minmax; lra.
  - apply (handleWheel_preserves_anchor (mkTransform 40 (-25) (5/2))
             viewport800x600 scenarioD_wheel).
    simpl; lra.
Defined.

(** ** The scale invariant *)

Lemma zoomIn_scale T rect : scaleInRange T -> scaleInRange (zoomIn T rect).
Proof.
  unfold scaleInRange, zoomIn. intros H.
  destruct rect; simpl; [|assumption]. split_minmax; lra.
Qed.

Lemma zoomOut_scale T rect : scaleInRange T -> scaleInRange (zoomOut T rect).
Proof.
  unfold scaleInRange, zoomOut. intros H.
  destruct rect; simpl; [|assumption]. split_minmax; lra.
Qed.

Lemma handleMouseMove_scale s rect e :
  scale (st_transform (handleMouseMove s rect e)) = scale (st_transform s).
Proof.
  unfold handleMouseMove. destruct (st_isDragging s), rect; reflexivity.
Qed.

Lemma step_scale s ev :
  scaleInRange (st_transform s) -> scaleInRange (st_transform (step s ev)).
Proof.
  intros H. destruct ev; simpl; try assumption.
  - unfold handleMouseDown. destruct (Nat.eqb _ _); assumption.
  - unfold scaleInRange. rewrite handleMouseMove_scale. assumption.
  - apply handleWheel_scale.
  - apply zoomIn_scale; assumption.
  - apply zoomOut_scale; assumption.
  - destruct (fitToView _ _ _) as [T|] eqn:Hfit; simpl; [|assumption].
    apply fitToView_scale in Hfit. unfold scaleInRange. lra.
  - unfold scaleInRange; simpl. lra.
  - destruct tables; assumption.
Qed.

(** C1: in every state reachable from the initial transform
    [{x: 0, y: 0, scale: 1}] by wheel zooms, zoom clicks, drags, fits,
    resets (and toggles, selections and data loads), the scale is in
    [0.1, 3.0]. *)
Theorem scale_invariant :
  forall s, reachable s -> 1/10 <= scale (st_transform s) <= 3.
Proof.
  intros s Hr. induction Hr as [|s ev _ IH].
  - simpl. lra.
  - apply step_scale. exact IH.
Qed.

Lemma scale_invariant_witness :
  1/10 <= scale (st_transform
                   (step (step (step initialState
                                     (ZoomInClick (Some viewport800x600)))
                               (Wheel viewport800x600 scenarioD_wheel))
                         (ZoomOutClick (Some viewport800x600)))) <= 3.
Proof.
  apply scale_invariant. do 3 apply reach_step. apply reach_init.
Defined.

Lemma reachable_run evs : reachable (run initialState evs).
Proof.
  unfold run. generalize initialState reach_init.
  induction evs as [|ev evs IH]; intros s Hs; simpl; [assumption|].
  apply IH. apply reach_step. assumption.
Qed.

(** ** Expand / collapse *)

Lemma includes_In arr s : includes arr s = true <-> In s arr.
Proof.
  unfold includes. rewrite existsb_exists. split.
  - intros (x & Hin & Heq). apply String.eqb_eq in Heq. subst. assumption.
  - intros Hin. exists s. split; [assumption | apply String.eqb_refl].
Qed.

Lemma includes_not_In arr s : includes arr s = false <-> ~ In s arr.
Proof.
  rewrite <- includes_In. destruct (includes arr s); split; congruence.
Qed.

(** [prev.filter(id => id !== tableId)] keeps exactly the other ids. *)
Lemma In_removed prev tableId s :
  In s (filter (fun id => negb (String.eqb id tableId)) prev)
  <-> In s prev /\ s <> tableId.
Proof.
  rewrite filter_In. rewrite negb_true_iff, String.eqb_neq. reflexivity.
Qed.

Lemma toggleTable_expanded prev tableId :
  In tableId prev ->
  toggleTable prev tableId
  = filter (fun id => negb (String.eqb id tableId)) prev.
Proof.
  intros H. unfold toggleTable. apply includes_In in H. rewrite H. reflexivity.
Qed.

Lemma toggleTable_collapsed prev tableId :
  ~ In tableId prev -> toggleTable prev tableId = prev ++ [tableId].
Proof.
  intros H. unfold toggleTable. apply includes_not_In in H. rewrite H.
  reflexivity.
Qed.

(** One toggle flips the membership of [tableId] and of nothing else. *)
Lemma toggleTable_In prev tableId s :
  In s (toggleTable prev tableId)
  <-> (s = tableId /\ ~ In tableId prev) \/ (s <> tableId /\ In s prev).
Proof.
  destruct (in_dec string_dec tableId prev) as [Hin|Hout].
  - rewrite (toggleTable_expanded _ _ Hin), In_removed. tauto.
  - rewrite (toggleTable_collapsed _ _ Hout), in_app_iff. simpl.
    destruct (string_dec s tableId) as [->|Hne]; [tauto|].
    split.
    + intros [H|[H|[]]]; [tauto | congruence].
    + tauto.
Qed.

(** C8: toggling the same table twice gives back the original membership:
    an id is in the expanded list after the two toggles iff it was in it
    before, both as list membership and as seen by [includes]. *)
Theorem toggleTable_twice_membership :
  forall prev tableId s,
    (In s (toggleTable (toggleTable prev tableId) tableId) <-> In s prev)
    /\ includes (toggleTable (toggleTable prev tableId) tableId) s
       = includes prev s.
Proof.
  intros prev tableId s.
  assert (H : In s (toggleTable (toggleTable prev tableId) tableId)
              <-> In s prev).
  { rewrite !toggleTable_In.
    destruct (string_dec s tableId) as [->|Hne];
      destruct (in_dec string_dec tableId prev); tauto. }
  split; [exact H|].
  destruct (includes prev s) eqn:E.
  - apply includes_In. apply H. apply includes_In. exact E.
  - apply includes_not_In. rewrite H. apply includes_not_In. exact E.
Qed.

Lemma NoDup_snoc (l : list string) a : NoDup l -> ~ In a l -> NoDup (l ++ [a]).
Proof.
  induction l as [|b l IH]; intros Hnd Hout; simpl.
  - constructor; [intros [] | constructor].
  - inversion Hnd as [|? ? Hb Hl]; subst. constructor.
    + rewrite in_app_iff. simpl. intros [H|[H|[]]]; [tauto|].
      apply Hout. left. congruence.
    + apply IH; [assumption|]. intros H. apply Hout. right. assumption.
Qed.

(** C10: [toggleTable] keeps the expanded list free of duplicates.  The
    removal leaves no occurrence of the id, and the id is appended only
    when it was absent. *)
Theorem toggleTable_NoDup :
  forall prev tableId,
    NoDup prev ->
    NoDup (toggleTable prev tableId)
    /\ (In tableId prev -> ~ In tableId (toggleTable prev tableId))
    /\ (~ In tableId prev -> toggleTable prev tableId = prev ++ [tableId]).
Proof.
  intros prev tableId Hnd. split; [|split].
  - destruct (in_dec string_dec tableId prev) as [Hin|Hout].
    + rewrite (toggleTable_expanded _ _ Hin). apply NoDup_filter. assumption.
    + rewrite (toggleTable_collapsed _ _ Hout). apply NoDup_snoc; assumption.
  - intros Hin. rewrite toggleTable_In. tauto.
  - apply toggleTable_collapsed.
Qed.

Lemma toggleTable_NoDup_witness :
  NoDup (toggleTable ["orders"; "customers"]%string "orders")
  /\ NoDup (toggleTable ["orders"; "customers"]%string "report").
Proof.
  assert (Hnd : NoDup ["orders"; "customers"]%string).
  { constructor.
    - simpl. intros [H|[]]. discriminate H.
    - constructor; [intros [] | constructor]. }
  split.
  - exact (proj1 (toggleTable_NoDup _ "orders" Hnd)).
  - exact (proj1 (toggleTable_NoDup _ "report" Hnd)).
Defined.

(** ** Rendering of connections *)

Lemma mapM_app {A B} (f : A -> result B) l1 l2 :
  mapM f (l1 ++ l2)
  = (bs1 <- mapM f l1 ;; bs2 <- mapM f l2 ;; Ok (bs1 ++ bs2)).
Proof.
  induction l1 as [|a l1 IH]; simpl.
  - destruct (mapM f l2); reflexivity.
  - destruct (f a); simpl; [|reflexivity]. rewrite IH.
    destruct (mapM f l1); simpl; [|reflexivity].
    destruct (mapM f l2); reflexivity.
Qed.

Lemma findTable_none tables tableId :
  (forall t, In t tables -> id t <> tableId) ->
  findTable tables tableId = None.
Proof.
  unfold findTable. induction tables as [|t tables IH]; intros H; simpl.
  - reflexivity.
  - destruct (String.eqb (id t) tableId) eqn:E.
    + apply String.eqb_eq in E. exfalso. apply (H t); [left; reflexivity | exact E].
    + apply IH. intros t' Hin. apply H. right. assumption.
Qed.

Lemma renderConnection_stale tables selectedColumn conn :
  staleEdge tables conn ->
  renderConnection tables selectedColumn conn = Ok None.
Proof.
  intros [H|H]; unfold renderConnection; rewrite (findTable_none _ _ H).
  - reflexivity.
  - destruct (findTable tables (ep_table (from conn))); reflexivity.
Qed.

Lemma edgeC_stale : staleEdge [table1; table2] edgeC.
Proof.
  right. intros t [<-|[<-|[]]]; simpl; discriminate.
Qed.

Lemma mapM_length {A B} (f : A -> result B) l : forall bs,
  mapM f l = Ok bs -> List.length bs = List.length l.
Proof.
  induction l as [|a l IH]; simpl; intros bs H.
  - injection H as <-. reflexivity.
  - destruct (f a); simpl in H; [|discriminate].
    destruct (mapM f l) as [bs'|]; simpl in H; [|discriminate].
    injection H as <-. simpl. f_equal. apply IH. reflexivity.
Qed.

(** The connections of a frame with a stale edge are those of the frame
    without it, with a [null] at the stale edge's place. *)
Lemma renderConnections_stale_inserted tables sel conn before after :
  staleEdge tables conn ->
  renderConnections tables sel (before ++ conn :: after)
  = (drawn <- renderConnections tables sel (before ++ after) ;;
     Ok (firstn (List.length before) drawn
         ++ None :: skipn (List.length before) drawn)).
Proof.
  intros Hstale. unfold renderConnections. rewrite !mapM_app. simpl.
  rewrite (renderConnection_stale tables sel conn Hstale). simpl.
  destruct (mapM (renderConnection tables sel) before) as [b|] eqn:Hb; simpl;
    [|reflexivity].
  destruct (mapM (renderConnection tables sel) after) as [a|]; simpl;
    [|reflexivity].
  rewrite <- (mapM_length _ _ _ Hb).
  rewrite firstn_app, skipn_app, firstn_all, skipn_all, Nat.sub_diag.
  simpl. rewrite app_nil_r. reflexivity.
Qed.

(** Where the stale edge enters the rendering of tables: the [some] of
    [isColumnHighlighted] also runs over it. *)
Lemma isColumnHighlighted_inserted before conn after sel tableId column :
  isColumnHighlighted (before ++ conn :: after) sel tableId column = true
  <-> isColumnHighlighted (before ++ after) sel tableId column = true
      \/ (column = sel /\ touches conn tableId column).
Proof.
  unfold isColumnHighlighted, touches.
  rewrite !existsb_app. simpl.
  rewrite !andb_true_iff, !orb_true_iff, !andb_true_iff, !String.eqb_eq.
  tauto.
Qed.

Lemma renderRows_clear conns conns' sel t p cols : forall start,
  map clearRowHighlight (renderRows conns sel t p start cols)
  = map clearRowHighlight (renderRows conns' sel t p start cols).
Proof.
  induction cols as [|column rest IH]; intros start; simpl;
    [reflexivity | f_equal; apply IH].
Qed.

Lemma renderRows_ext conns conns' sel t p cols :
  (forall column, isColumnHighlighted conns sel (id t) column
                  = isColumnHighlighted conns' sel (id t) column) ->
  forall start, renderRows conns sel t p start cols
                = renderRows conns' sel t p start cols.
Proof.
  intros Hext. induction cols as [|column rest IH]; intros start; simpl;
    [reflexivity|]. rewrite Hext, IH. reflexivity.
Qed.

(** The stale edge of scenario C does change how [table1] is drawn: with
    [col_a] selected, the row [col_a] of the expanded [table1] is
    highlighted when the stale edge [table1.col_a -> missing.col_a] is in
    the connection list, and is not when the list is empty.  So the claim's
    "all other nodes are rendered unaffected" does not hold as stated. *)
Lemma stale_edge_changes_row_highlight :
  staleEdge [table1; table2] edgeC
  /\ renderConnection [table1; table2] "col_a" edgeC = Ok None
  /\ exists d d',
       renderTable ["table1"%string] [edgeC] "col_a" table1 = Some d
       /\ renderTable ["table1"%string] [] "col_a" table1 = Some d'
       /\ map row_highlighted (dt_rows d) = [true; false]
       /\ map row_highlighted (dt_rows d') = [false; false]
       /\ d <> d'.
Proof.
  split; [exact edgeC_stale|]. split; [reflexivity|].
  eexists. eexists. split; [reflexivity|]. split; [reflexivity|].
  split; [reflexivity|]. split; [reflexivity|].
  intros H. apply (f_equal (fun d => map row_highlighted (dt_rows d))) in H.
  discriminate H.
Qed.

(** C6 (amended): an edge whose [from.table] or [to.table] matches no
    table id is skipped without an error: its callback returns [null].
    Compared with the same frame without that edge:
    - the connections are rendered the same, with a [null] inserted at the
      stale edge's place, and the frame throws only if it throws without
      the stale edge;
    - every table with a position is drawn, with the same box, the same
      expand state and the same rows at the same places; only the
      highlight of a row may differ, and a row is highlighted with the
      stale edge exactly when it is highlighted without it or its column is
      the selected one and (table, column) is an endpoint of the stale
      edge;
    - a table that is not an endpoint of the stale edge on the selected
      column is drawn exactly the same. *)
Theorem stale_edge_skipped_rest_kept_up_to_row_highlight :
  forall tables sel conn,
    staleEdge tables conn ->
    renderConnection tables sel conn = Ok None
    /\ forall before after,
         renderConnections tables sel (before ++ conn :: after)
         = (drawn <- renderConnections tables sel (before ++ after) ;;
            Ok (firstn (List.length before) drawn
                ++ None :: skipn (List.length before) drawn))
         /\ (forall ex,
               renderScene tables (before ++ conn :: after) ex sel = TypeError
               <-> renderScene tables (before ++ after) ex sel = TypeError)
         /\ forall ex t,
              (forall p, position t = Some p ->
                 exists d d',
                   renderTable ex (before ++ conn :: after) sel t = Some d
                   /\ renderTable ex (before ++ after) sel t = Some d'
                   /\ clearHighlights d = clearHighlights d'
                   /\ dt_x d = pos_x p /\ dt_y d = pos_y p
                   /\ dt_width d = 240 /\ dt_height d = tableHeight ex t)
              /\ (position t = None ->
                    renderTable ex (before ++ conn :: after) sel t = None
                    /\ renderTable ex (before ++ after) sel t = None)
              /\ (forall column,
                    isColumnHighlighted (before ++ conn :: after) sel (id t)
                                        column = true
                    <-> isColumnHighlighted (before ++ after) sel (id t)
                                            column = true
                        \/ (column = sel /\ touches conn (id t) column))
              /\ (~ touches conn (id t) sel ->
                    renderTable ex (before ++ conn :: after) sel t
                    = renderTable ex (before ++ after) sel t).
Proof.
  intros tables sel conn Hstale.
  split; [apply renderConnection_stale; assumption|].
  intros before after.
  pose proof (renderConnections_stale_inserted tables sel conn before after
                Hstale) as Hconns.
  split; [exact Hconns|]. split.
  - intros ex. unfold renderScene. rewrite Hconns.
    destruct (renderConnections tables sel (before ++ after)); simpl;
      split; (discriminate || reflexivity).
  - intros ex t. split; [|split; [|split]].
    + intros p Hp. unfold renderTable. rewrite Hp.
      eexists. eexists. split; [reflexivity|]. split; [reflexivity|].
      split; [|simpl; tauto].
      unfold clearHighlights; simpl. f_equal.
      destruct (includes ex (id t)); [|reflexivity]. apply renderRows_clear.
    + intros Hp. unfold renderTable. rewrite Hp. split; reflexivity.
    + intros column. apply isColumnHighlighted_inserted.
    + intros Hno. unfold renderTable.
      destruct (position t) as [p|]; [|reflexivity].
      do 2 f_equal. destruct (includes ex (id t)); [|reflexivity].
      apply renderRows_ext. intros column.
      pose proof (isColumnHighlighted_inserted before conn after sel (id t)
                    column) as Hins.
      destruct (isColumnHighlighted (before ++ after) sel (id t) column)
        eqn:E.
      * apply Hins. left. reflexivity.
      * destruct (isColumnHighlighted (before ++ conn :: after) sel (id t)
                    column) eqn:E'; [|reflexivity].
        destruct Hins as [Hins _].
        destruct (Hins eq_refl) as [Hc|[-> Ht]]; [discriminate | tauto].
Qed.

Lemma stale_edge_skipped_rest_kept_witness :
  renderConnection [table1; table2] "col_a" edgeC = Ok None
  /\ renderConnections [table1; table2] "col_a" ([edgeB] ++ edgeC :: [])
     = (drawn <- renderConnections [table1; table2] "col_a" ([edgeB] ++ []) ;;
        Ok (firstn 1 drawn ++ None :: skipn 1 drawn))
  /\ renderTable ["table1"; "table2"]%string ([edgeB] ++ edgeC :: [])
                 "col_a" table2
     = renderTable ["table1"; "table2"]%string ([edgeB] ++ []) "col_a" table2.
Proof.
  destruct (stale_edge_skipped_rest_kept_up_to_row_highlight
              [table1; table2] "col_a" edgeC edgeC_stale) as [Hskip Hrest].
  destruct (Hrest [edgeB] []) as (Hconns & _ & Hnodes).
  split; [exact Hskip|]. split; [exact Hconns|].
  destruct (Hnodes ["table1"; "table2"]%string table2) as (_ & _ & _ & Hsame).
  apply Hsame. unfold touches; simpl. intros [[H _]|[H _]]; discriminate H.
Defined.

(** The outcome of a connection callback never depends on the other
    connections of the list. *)
Lemma renderConnection_drawn tables selectedColumn conn ft tt fp tp :
  findTable tables (ep_table (from conn)) = Some ft ->
  findTable tables (ep_table (to conn)) = Some tt ->
  position ft = Some fp -> position tt = Some tp ->
  exists d, renderConnection tables selectedColumn conn = Ok (Some d)
            /\ dc_highlighted d = isHighlighted selectedColumn conn.
Proof.
  intros Hf Ht Hfp Htp. unfold renderConnection. rewrite Hf, Ht.
  unfold getConnectionPath, positionOf. rewrite Hfp, Htp. simpl.
  destruct (isHighlighted selectedColumn conn); simpl; eexists; split;
    reflexivity.
Qed.

Lemma isHighlighted_iff selectedColumn conn :
  isHighlighted selectedColumn conn = true
  <-> ep_column (from conn) = selectedColumn
      \/ ep_column (to conn) = selectedColumn.
Proof.
  unfold isHighlighted. rewrite orb_true_iff, !String.eqb_eq. reflexivity.
Qed.

(** C7: the highlight flag of a drawn edge is true iff [from.column] or
    [to.column] equals the selected column. *)
Theorem edge_highlight_iff :
  forall tables selectedColumn conn d,
    renderConnection tables selectedColumn conn = Ok (Some d) ->
    (dc_highlighted d = true
     <-> ep_column (from conn) = selectedColumn
         \/ ep_column (to conn) = selectedColumn).
Proof.
  intros tables sel conn d. unfold renderConnection.
  destruct (findTable tables (ep_table (from conn))) as [ft|]; [|discriminate].
  destruct (findTable tables (ep_table (to conn))) as [tt|]; [|discriminate].
  destruct (getConnectionPath ft tt) as [path|]; simpl; [|discriminate].
  rewrite <- isHighlighted_iff.
  destruct (isHighlighted sel conn); simpl.
  - destruct (positionOf ft); simpl; [|discriminate].
    destruct (positionOf tt); simpl; [|discriminate].
    intros H. injection H as <-. simpl. reflexivity.
  - intros H. injection H as <-. simpl. reflexivity.
Qed.

Lemma edgeB_rendered selectedColumn :
  renderConnection [table1; table2] selectedColumn edgeB
  = Ok (Some (edgeB_drawn (isHighlighted selectedColumn edgeB))).
Proof.
  unfold renderConnection, edgeB_drawn; simpl.
  assert (Hoff : Rmin (Rmax (Rabs (400 - (0 + 240)) * (4/10)) 80) 200 = 80).
  { replace (400 - (0 + 240)) with 160 by lra.
    rewrite Rabs_pos_eq by lra. split_minmax; lra. }
  rewrite Hoff. destruct (isHighlighted selectedColumn edgeB); reflexivity.
Qed.

Lemma edge_highlight_iff_witness :
  dc_highlighted (edgeB_drawn (isHighlighted "col_a" edgeB)) = true
  <-> ep_column (from edgeB) = "col_a"%string
      \/ ep_column (to edgeB) = "col_a"%string.
Proof.
  apply (edge_highlight_iff [table1; table2] "col_a" edgeB).
  apply edgeB_rendered.
Defined.

Example scenarioB_col_a : isHighlighted "col_a" edgeB = true.
Proof. reflexivity. Qed.

Example scenarioB_col_b : isHighlighted "col_b" edgeB = false.
Proof. reflexivity. Qed.

Example scenarioC_skipped sel :
  renderConnection [table1; table2] sel edgeC = Ok None.
Proof. reflexivity. Qed.

(** * Further properties of the handlers *)

(** ** The zoom buttons *)

(** X1: both zoom buttons zoom about the centre of the viewport: the
    content point shown at the centre before the click is shown at the
    centre after it. *)
Theorem zoom_buttons_keep_center :
  forall T rect,
    scaleInRange T ->
    contentToScreen (zoomIn T (Some rect)) (screenToContent T (viewCenter rect))
    = viewCenter rect
    /\ contentToScreen (zoomOut T (Some rect))
                       (screenToContent T (viewCenter rect))
       = viewCenter rect.
Proof.
  intros T rect Hs. unfold scaleInRange in Hs.
  unfold contentToScreen, screenToContent, viewCenter, zoomIn, zoomOut; simpl.
  split; f_equal; field; lra.
Qed.

Lemma zoom_buttons_keep_center_witness :
  contentToScreen (zoomIn initialTransform (Some viewport800x600))
                  (screenToContent initialTransform (viewCenter viewport800x600))
  = viewCenter viewport800x600
  /\ contentToScreen (zoomOut initialTransform (Some viewport800x600))
                     (screenToContent initialTransform
                                      (viewCenter viewport800x600))
     = viewCenter viewport800x600.
Proof.
  apply (zoom_buttons_keep_center initialTransform viewport800x600).
  unfold scaleInRange; simpl; lra.
Defined.

Lemma zoomIn_unclamped T rect :
  scale T * (13/10) <= 3 -> scale T <> 0 ->
  zoomIn T (Some rect)
  = mkTransform (tx T - (rect_width rect / 2 - tx T) * (13/10 - 1))
                (ty T - (rect_height rect / 2 - ty T) * (13/10 - 1))
                (scale T * (13/10)).
Proof.
  intros Hc Hz. unfold zoomIn. rewrite Rmin_right by lra.
  replace (scale T * (13/10) / scale T) with (13/10) by (field; assumption).
  reflexivity.
Qed.

Lemma zoomOut_unclamped T rect :
  1/10 <= scale T / (13/10) -> scale T <> 0 ->
  zoomOut T (Some rect)
  = mkTransform (tx T - (rect_width rect / 2 - tx T) * (10/13 - 1))
                (ty T - (rect_height rect / 2 - ty T) * (10/13 - 1))
                (scale T / (13/10)).
Proof.
  intros Hc Hz. unfold zoomOut. rewrite Rmax_right by lra.
  replace (scale T / (13/10) / scale T) with (10/13) by (field; assumption).
  reflexivity.
Qed.

(** X2: zoom-in followed by zoom-out on the same viewport gives back the
    transform when the zoom-in stayed below the ceiling, and zoom-out
    followed by zoom-in does when the zoom-out stayed above the floor. *)
Theorem zoom_buttons_round_trip :
  forall T rect,
    scaleInRange T ->
    (scale T * (13/10) <= 3 ->
     zoomOut (zoomIn T (Some rect)) (Some rect) = T)
    /\ (1/10 <= scale T / (13/10) ->
        zoomIn (zoomOut T (Some rect)) (Some rect) = T).
Proof.
  intros [x y s] rect Hs. unfold scaleInRange in Hs; simpl in Hs. split.
  - intros Hc. simpl in Hc.
    rewrite (zoomIn_unclamped _ rect) by (simpl; lra).
    rewrite zoomOut_unclamped by (simpl; lra). simpl.
    f_equal; field.
  - intros Hc. simpl in Hc.
    rewrite (zoomOut_unclamped _ rect) by (simpl; lra).
    rewrite zoomIn_unclamped by (simpl; lra). simpl.
    f_equal; field.
Qed.

Lemma zoom_buttons_round_trip_witness :
  zoomOut (zoomIn initialTransform (Some viewport800x600))
          (Some viewport800x600) = initialTransform
  /\ zoomIn (zoomOut initialTransform (Some viewport800x600))
            (Some viewport800x600) = initialTransform.
Proof.
  destruct (zoom_buttons_round_trip initialTransform viewport800x600)
    as [Hin Hout].
  - unfold scaleInRange; simpl; lra.
  - split; [apply Hin | apply Hout]; simpl; lra.
Defined.

(** X3: the [disabled] flags of the zoom buttons agree with the handlers.
    With the scale in range, the zoom-in button is disabled exactly when a
    click would leave the transform as it is, and an enabled button
    strictly enlarges the scale; likewise, the other way round, for
    zoom-out. *)
Theorem zoom_buttons_disabled_iff_no_effect :
  forall T rect,
    scaleInRange T ->
    (zoomInDisabled T = true <-> zoomIn T (Some rect) = T)
    /\ (zoomInDisabled T = false ->
        scale T < scale (zoomIn T (Some rect)))
    /\ (zoomOutDisabled T = true <-> zoomOut T (Some rect) = T)
    /\ (zoomOutDisabled T = false ->
        scale (zoomOut T (Some rect)) < scale T).
Proof.
  intros [x y s] rect Hs. unfold scaleInRange in Hs; simpl in Hs.
  unfold zoomInDisabled, zoomOutDisabled; simpl.
  repeat split.
  - destruct (Rle_dec 3 s) as [H3|H3]; [intros _|discriminate].
    assert (s = 3) by lra. subst s. unfold zoomIn; simpl.
    rewrite Rmin_left by lra. f_equal; field.
  - intros Heq. apply (f_equal scale) in Heq. unfold zoomIn in Heq.
    simpl in Heq. destruct (Rle_dec 3 s); [reflexivity|].
    exfalso. revert Heq. split_minmax; lra.
  - destruct (Rle_dec 3 s); [discriminate|]. intros _.
    unfold zoomIn; simpl. split_minmax; lra.
  - destruct (Rle_dec s (1/10)) as [H1|H1]; [intros _|discriminate].
    assert (s = 1/10) by lra. subst s. unfold zoomOut; simpl.
    rewrite Rmax_left by lra. f_equal; field.
  - intros Heq. apply (f_equal scale) in Heq. unfold zoomOut in Heq.
    simpl in Heq. destruct (Rle_dec s (1/10)); [reflexivity|].
    exfalso. revert Heq. split_minmax; lra.
  - destruct (Rle_dec s (1/10)); [discriminate|]. intros _.
    unfold zoomOut; simpl. split_minmax; lra.
Qed.

Lemma zoom_buttons_disabled_iff_no_effect_witness :
  zoomInDisabled initialTransform = false
  /\ scale initialTransform
     < scale (zoomIn initialTransform (Some viewport800x600)).
Proof.
  assert (Hd : zoomInDisabled initialTransform = false).
  { unfold zoomInDisabled; simpl. destruct (Rle_dec 3 1); [lra|reflexivity]. }
  split; [exact Hd|].
  destruct (zoom_buttons_disabled_iff_no_effect initialTransform
              viewport800x600) as (_ & Hgrow & _).
  - unfold scaleInRange; simpl; lra.
  - apply Hgrow. exact Hd.
Defined.

(** ** The wheel handler, continued *)

Lemma exp_le_1 x : x <= 0 -> exp x <= 1.
Proof.
  intros [H | ->]; [|rewrite exp_0; lra].
  pose proof (exp_increasing _ _ H) as Hi. rewrite exp_0 in Hi. lra.
Qed.

Lemma exp_ge_1 x : 0 <= x -> 1 <= exp x.
Proof. intros H. pose proof (exp_ineq1_le x). lra. Qed.

(** X4: the wheel zooms in the direction it is turned.  With the scale in
    range, a non-negative [deltaY] never enlarges the scale and a
    non-positive one never reduces it; [deltaY = 0] leaves the whole
    transform as it is. *)
Theorem handleWheel_direction :
  forall T rect e,
    scaleInRange T ->
    (0 <= deltaY e -> scale (handleWheel T rect e) <= scale T)
    /\ (deltaY e <= 0 -> scale T <= scale (handleWheel T rect e))
    /\ (deltaY e = 0 -> handleWheel T rect e = T).
Proof.
  intros [x y s] rect e Hs. unfold scaleInRange in Hs; simpl in Hs.
  unfold handleWheel; simpl. repeat split.
  - intros Hd. pose proof (exp_le_1 (- deltaY e / 1000) ltac:(lra)) as He.
    pose proof (exp_pos (- deltaY e / 1000)) as Hp.
    assert (s * exp (- deltaY e / 1000) <= s) by nra.
    split_minmax; lra.
  - intros Hd. pose proof (exp_ge_1 (- deltaY e / 1000) ltac:(lra)) as He.
    assert (s <= s * exp (- deltaY e / 1000)) by nra.
    split_minmax; lra.
  - intros ->. replace (- 0 / 1000) with 0 by lra. rewrite exp_0, Rmult_1_r.
    rewrite (Rmin_right 3 s) by lra. rewrite (Rmax_right (1/10) s) by lra.
    f_equal; field; lra.
Qed.

Lemma handleWheel_direction_witness :
  scale (handleWheel initialTransform viewport800x600 (mkWheel 400 300 120))
  <= scale initialTransform
  /\ handleWheel initialTransform viewport800x600 (mkWheel 400 300 0)
     = initialTransform.
Proof.
  split.
  - apply (handleWheel_direction initialTransform viewport800x600
             (mkWheel 400 300 120)).
    + unfold scaleInRange; simpl; lra.
    + simpl; lra.
  - apply (handleWheel_direction initialTransform viewport800x600
             (mkWheel 400 300 0)).
    + unfold scaleInRange; simpl; lra.
    + reflexivity.
Defined.

(** X5: turning the wheel back undoes the zoom.  If a wheel event did not
    run into a clamp, the event with the opposite [deltaY] at the same
    pointer position gives back the transform. *)
Theorem handleWheel_round_trip :
  forall T rect e e',
    scaleInRange T ->
    wheel_clientX e' = wheel_clientX e ->
    wheel_clientY e' = wheel_clientY e ->
    deltaY e' = - deltaY e ->
    1/10 <= scale T * exp (- deltaY e / 1000) <= 3 ->
    handleWheel (handleWheel T rect e) rect e' = T.
Proof.
  intros [x y s] rect [cx cy d] [cx' cy' d'] Hs Hx Hy Hd Hc.
  unfold scaleInRange in Hs. simpl in *. subst cx' cy' d'.
  unfold handleWheel; simpl.
  set (E := exp (- d / 1000)) in *.
  assert (HE : 0 < E) by apply exp_pos.
  assert (HE' : exp (- - d / 1000) = / E).
  { unfold E. replace (- - d / 1000) with (- (- d / 1000)) by lra.
    apply exp_Ropp. }
  rewrite HE'.
  rewrite (Rmin_right 3 (s * E)) by lra.
  rewrite (Rmax_right (1/10) (s * E)) by lra.
  replace (s * E * / E) with s by (field; lra).
  rewrite (Rmin_right 3 s) by lra. rewrite (Rmax_right (1/10) s) by lra.
  f_equal; field; lra.
Qed.

Lemma handleWheel_round_trip_witness :
  handleWheel (handleWheel initialTransform viewport800x600 scenarioD_wheel)
              viewport800x600 (mkWheel 400 300 1000)
  = initialTransform.
Proof.
  apply handleWheel_round_trip.
  - unfold scaleInRange; simpl; lra.
  - reflexivity.
  - reflexivity.
  - simpl; lra.
  - simpl. replace (- -1000 / 1000) with 1 by lra.
    pose proof exp_1_bounds. lra.
Defined.

(** ** Dragging *)

(** X6: a drag is a translation by the pointer's displacement.  After a
    primary-button press and a move (on the same svg rectangle), the
    transform is the one at the press shifted by the pointer's displacement
    since the press, with the scale unchanged, so every content point moves
    on screen by that displacement; a later move replaces the earlier one
    instead of adding to it. *)
Theorem drag_translates :
  forall s rect e0 e1,
    button e0 = 0%nat ->
    let pressed := handleMouseDown s rect e0 in
    let moved := handleMouseMove pressed (Some rect) e1 in
    let dx := fst (pointerIn rect e1) - fst (pointerIn rect e0) in
    let dy := snd (pointerIn rect e1) - snd (pointerIn rect e0) in
    st_transform moved
    = mkTransform (tx (st_transform s) + dx) (ty (st_transform s) + dy)
                  (scale (st_transform s))
    /\ (forall p,
           contentToScreen (st_transform moved) p
           = (fst (contentToScreen (st_transform s) p) + dx,
              snd (contentToScreen (st_transform s) p) + dy))
    /\ (forall e2,
           handleMouseMove moved (Some rect) e2
           = handleMouseMove pressed (Some rect) e2).
Proof.
  intros s rect e0 e1 Hb. unfold handleMouseDown. rewrite Hb. simpl.
  unfold handleMouseMove, setTransform, contentToScreen, pointerIn; simpl.
  split; [reflexivity|]. split; [|reflexivity].
  intros p. f_equal; lra.
Qed.

Lemma drag_translates_witness :
  st_transform
    (handleMouseMove
       (handleMouseDown initialState viewport800x600 (mkMouse 0 100 100))
       (Some viewport800x600) (mkMouse 0 130 90))
  = mkTransform (0 + (130 - 0 - (100 - 0))) (0 + (90 - 0 - (100 - 0))) 1.
Proof.
  apply (drag_translates initialState viewport800x600 (mkMouse 0 100 100)
                         (mkMouse 0 130 90)).
  reflexivity.
Defined.

Lemma handleMouseMove_idle s rect e :
  st_isDragging s = false -> handleMouseMove s rect e = s.
Proof. unfold handleMouseMove. intros ->. reflexivity. Qed.

Lemma step_move_idle s ev :
  isMouseMove ev -> st_isDragging s = false -> step s ev = s.
Proof.
  destruct ev; simpl; try contradiction. intros _.
  apply handleMouseMove_idle.
Qed.

(** X7: the pointer moves the view only during a drag.  Once the button is
    released, any sequence of mouse moves leaves the state as it is; the
    same holds after a press with another button than the primary one in
    an idle state. *)
Theorem moves_after_release_do_nothing :
  forall s moves,
    Forall isMouseMove moves ->
    run (handleMouseUp s) moves = handleMouseUp s
    /\ (forall rect e,
           button e <> 0%nat -> st_isDragging s = false ->
           run (handleMouseDown s rect e) moves = s).
Proof.
  intros s moves Hall.
  assert (Hidle : forall s0, st_isDragging s0 = false -> run s0 moves = s0).
  { unfold run. induction Hall as [|ev moves Hev _ IH]; intros s0 Hs0; simpl.
    - reflexivity.
    - rewrite (step_move_idle _ _ Hev Hs0). apply IH. assumption. }
  split.
  - apply Hidle. reflexivity.
  - intros rect e Hb Hs. unfold handleMouseDown.
    apply Nat.eqb_neq in Hb. rewrite Hb. apply Hidle. assumption.
Qed.

Lemma moves_after_release_do_nothing_witness :
  run (handleMouseUp
         (handleMouseDown initialState viewport800x600 (mkMouse 0 100 100)))
      [MouseMove (Some viewport800x600) (mkMouse 0 130 90);
       MouseMove None (mkMouse 0 10 10)]
  = handleMouseUp
      (handleMouseDown initialState viewport800x600 (mkMouse 0 100 100)).
Proof.
  apply moves_after_release_do_nothing.
  repeat constructor.
Defined.

(** ** [fitToView], continued *)

Lemma not_all_unpositioned tables :
  Exists hasPosition tables ->
  ~ Forall (fun t => position t = None) tables.
Proof.
  intros Hex Hall. apply Exists_exists in Hex. destruct Hex as (t & Hin & Hpos).
  rewrite Forall_forall in Hall. apply Hpos, Hall, Hin.
Qed.

Lemma fitToView_some_inv ex tables rect T :
  fitToView ex tables rect = Some T ->
  exists r a b c d,
    rect = Some r /\ rect_width r <> 0 /\ rect_height r <> 0
    /\ scanTables ex tables = mkExtent (Fin a) (Fin b) (Fin c) (Fin d)
    /\ T = fitTransform (rect_width r) (rect_height r) a b c d.
Proof.
  unfold fitToView. intros H.
  destruct tables as [|t tables]; [discriminate|].
  destruct rect as [r|]; [|discriminate].
  destruct (Req_dec_T (rect_width r) 0); [discriminate|].
  destruct (Req_dec_T (rect_height r) 0); [discriminate|].
  destruct (scanTables ex (t :: tables)) as [m1 m2 m3 m4]; simpl in H.
  destruct m1 as [| | |a]; try discriminate.
  destruct m2 as [| | |b]; try discriminate.
  destruct m3 as [| | |c]; try discriminate.
  destruct m4 as [| | |d]; try discriminate.
  injection H as <-. exists r, a, b, c, d. repeat split; assumption.
Qed.

(** X8: when [fitToView] does nothing.  It leaves the transform alone
    exactly when the svg is not mounted, the viewport is zero wide or zero
    high, or no table of the list has a position (the empty list
    included). *)
Theorem fitToView_noop_iff :
  forall ex tables rect,
    fitToView ex tables rect = None
    <-> rect = None
        \/ (exists r, rect = Some r
                      /\ (rect_width r = 0 \/ rect_height r = 0))
        \/ Forall (fun t => position t = None) tables.
Proof.
  intros ex tables rect. split.
  - intros Hnone.
    destruct rect as [r|]; [|left; reflexivity].
    destruct (Req_dec_T (rect_width r) 0) as [Hw|Hw];
      [right; left; exists r; tauto|].
    destruct (Req_dec_T (rect_height r) 0) as [Hh|Hh];
      [right; left; exists r; tauto|].
    right; right.
    destruct (scanTables_cases ex tables)
      as [[Hall _]|[_ (a & b & c & d & Hs & _)]]; [assumption|].
    rewrite (fitToView_finite _ _ _ _ _ _ _ Hw Hh Hs) in Hnone. discriminate.
  - intros [->|[(r & -> & Hz)|Hall]].
    + unfold fitToView. destruct tables; reflexivity.
    + unfold fitToView. destruct tables; [reflexivity|].
      destruct (Req_dec_T (rect_width r) 0); [reflexivity|].
      destruct (Req_dec_T (rect_height r) 0); [reflexivity|]. tauto.
    + apply fitToView_unpositioned. assumption.
Qed.

Lemma fitToView_noop_iff_witness :
  fitToView [] [unplaced] (Some viewport800x600) = None
  /\ fitToView [] [scenarioA_left] (Some (mkRect 0 0 0 600)) = None.
Proof.
  split.
  - apply (fitToView_noop_iff [] [unplaced] (Some viewport800x600)).
    right; right. constructor; [reflexivity | constructor].
  - apply (fitToView_noop_iff [] [scenarioA_left] (Some (mkRect 0 0 0 600))).
    right; left. exists (mkRect 0 0 0 600). split; [reflexivity|].
    left. reflexivity.
Defined.

(** X9: the scale that [fitToView] sets is between 15% and 90%, whatever
    the tables and the viewport. *)
Theorem fitToView_scale_between_15_and_90 :
  forall ex tables rect T,
    fitToView ex tables rect = Some T ->
    15/100 <= scale T <= 9/10.
Proof.
  intros ex tables rect T H.
  destruct (fitToView_some_inv _ _ _ _ H) as (r & a & b & c & d & _ & _ & _ & _ & ->).
  apply fitTransform_scale.
Qed.

Lemma scenarioA_fit :
  fitToView [] [scenarioA_left; scenarioA_right] (Some viewport800x600)
  = Some (fitTransform 800 600 0 0 640 80).
Proof.
  apply (fitToView_finite [] [scenarioA_left; scenarioA_right]
           viewport800x600 0 0 640 80).
  - simpl; lra.
  - simpl; lra.
  - exact scenarioA_scan.
Qed.

Lemma fitToView_scale_between_15_and_90_witness :
  15/100 <= scale (fitTransform 800 600 0 0 640 80) <= 9/10.
Proof.
  apply (fitToView_scale_between_15_and_90
           [] [scenarioA_left; scenarioA_right] (Some viewport800x600)).
  exact scenarioA_fit.
Defined.

(** X10: after every fit, also one that cannot show all the content, no
    table starts left of or above the 60-pixel margin: the top-left corner
    of every positioned table's screen box is at least 60 pixels from the
    left and from the top edge. *)
Theorem fitToView_left_top_margin :
  forall ex tables rect T,
    fitToView ex tables rect = Some T ->
    forall t p, In t tables -> position t = Some p ->
      fitPadding <= fst (fst (nodeScreenBox T ex t p))
      /\ fitPadding <= snd (fst (nodeScreenBox T ex t p)).
Proof.
  intros ex tables rect T H t p Hin Hp.
  destruct (fitToView_some_inv _ _ _ _ H)
    as (r & a & b & c & d & _ & _ & _ & Hs & ->).
  destruct (scanTables_cases ex tables)
    as [[_ H0]|[_ (a' & b' & c' & d' & Hs' & _ & _ & Hcover)]].
  { rewrite Hs in H0. discriminate. }
  rewrite Hs in Hs'. injection Hs' as <- <- <- <-.
  destruct (Hcover t p Hin Hp) as (Hx & _ & Hy & _).
  pose proof (fitTransform_origin (rect_width r) (rect_height r) a b c d)
    as [Hox Hoy].
  pose proof (fitTransform_scale (rect_width r) (rect_height r) a b c d)
    as [Hlo _].
  cbv zeta in Hox, Hoy.
  remember (fitTransform (rect_width r) (rect_height r) a b c d) as T eqn:HT.
  clear HT. unfold nodeScreenBox, contentToScreen; simpl.
  assert (0 <= (pos_x p - a) * scale T) by (apply Rmult_le_pos; lra).
  assert (0 <= (pos_y p - b) * scale T) by (apply Rmult_le_pos; lra).
  lra.
Qed.

Lemma fitToView_left_top_margin_witness :
  fitPadding
  <= fst (fst (nodeScreenBox (fitTransform 800 600 0 0 640 80) []
                             scenarioA_right (mkPoint 400 0)))
  /\ fitPadding
     <= snd (fst (nodeScreenBox (fitTransform 800 600 0 0 640 80) []
                                scenarioA_right (mkPoint 400 0))).
Proof.
  apply (fitToView_left_top_margin [] [scenarioA_left; scenarioA_right]
           (Some viewport800x600)).
  - exact scenarioA_fit.
  - right; left; reflexivity.
  - reflexivity.
Defined.

(** X11: a fit that can show all the content centres it.  When the
    unclamped fit ratio is at least 0.15, the content rectangle [a b c d]
    found by the scan is shown with equal gaps left and right and equal
    gaps above and below. *)
Theorem fitToView_centres_content :
  forall ex tables rect a b c d,
    rect_width rect <> 0 -> rect_height rect <> 0 ->
    scanTables ex tables = mkExtent (Fin a) (Fin b) (Fin c) (Fin d) ->
    15/100 <= Rmin ((rect_width rect - fitPadding * 2) / (c - a))
                   ((rect_height rect - fitPadding * 2) / (d - b)) ->
    exists T,
      fitToView ex tables (Some rect) = Some T
      /\ fst (contentToScreen T (a, b)) - 0
         = rect_width rect - fst (contentToScreen T (c, d))
      /\ snd (contentToScreen T (a, b)) - 0
         = rect_height rect - snd (contentToScreen T (c, d)).
Proof.
  intros ex tables rect a b c d Hw Hh Hs Hfit.
  exists (fitTransform (rect_width rect) (rect_height rect) a b c d).
  split; [apply fitToView_finite; assumption|].
  destruct (scanTables_cases ex tables)
    as [[_ H0]|[_ (a' & b' & c' & d' & Hs' & Hcw & Hch & _)]].
  { rewrite Hs in H0. discriminate. }
  rewrite Hs in Hs'. injection Hs' as <- <- <- <-.
  destruct (fitTransform_contains (rect_width rect) (rect_height rect)
              a b c d ltac:(lra) ltac:(lra) Hfit a b c d
              ltac:(lra) ltac:(lra) ltac:(lra) ltac:(lra))
    as (Hl & Hr & Ht & Hb).
  revert Hl Hr Ht Hb.
  unfold contentToScreen, fitTransform, fitPadding; simpl.
  set (s := Rmax (15/100) (Rmin (Rmin _ _) (9/10))).
  generalize s. intros s0. split_minmax; lra.
Qed.

Lemma fitToView_centres_content_witness :
  exists T,
    fitToView [] [scenarioA_left; scenarioA_right] (Some viewport800x600)
    = Some T
    /\ fst (contentToScreen T (0, 0)) - 0
       = rect_width viewport800x600 - fst (contentToScreen T (640, 80))
    /\ snd (contentToScreen T (0, 0)) - 0
       = rect_height viewport800x600 - snd (contentToScreen T (640, 80)).
Proof.
  apply (fitToView_centres_content [] [scenarioA_left; scenarioA_right]
           viewport800x600 0 0 640 80).
  - simpl; lra.
  - simpl; lra.
  - exact scenarioA_scan.
  - unfold fitPadding; simpl. split_minmax; lra.
Defined.

(** ** The bounds scan, continued *)

Lemma jsmin_swap a x y :
  JsNum.min (JsNum.min a (Fin x)) (Fin y)
  = JsNum.min (JsNum.min a (Fin y)) (Fin x).
Proof. destruct a; simpl; try reflexivity; f_equal; split_minmax; lra. Qed.

Lemma jsmax_swap a x y :
  JsNum.max (JsNum.max a (Fin x)) (Fin y)
  = JsNum.max (JsNum.max a (Fin y)) (Fin x).
Proof. destruct a; simpl; try reflexivity; f_equal; split_minmax; lra. Qed.

Lemma scanTable_swap ex acc t1 t2 :
  scanTable ex (scanTable ex acc t1) t2 = scanTable ex (scanTable ex acc t2) t1.
Proof.
  unfold scanTable.
  destruct (position t1) as [p1|], (position t2) as [p2|]; simpl;
    try reflexivity.
  f_equal; auto using jsmin_swap, jsmax_swap.
Qed.

Lemma scan_permutation ex tables tables' :
  Permutation tables tables' ->
  forall acc, fold_left (scanTable ex) tables acc
              = fold_left (scanTable ex) tables' acc.
Proof.
  induction 1 as [|t l l' _ IH|t1 t2 l|l l' l'' _ IH1 _ IH2]; intros acc; simpl.
  - reflexivity.
  - apply IH.
  - rewrite scanTable_swap. reflexivity.
  - rewrite IH1. apply IH2.
Qed.

(** X12: the order of the tables does not matter.  Reordering the table
    list changes neither the scanned extent nor what [fitToView] sets nor
    what [getContentBounds] returns. *)
Theorem bounds_ignore_table_order :
  forall ex tables tables' rect,
    Permutation tables tables' ->
    scanTables ex tables = scanTables ex tables'
    /\ fitToView ex tables rect = fitToView ex tables' rect
    /\ getContentBounds ex tables = getContentBounds ex tables'.
Proof.
  intros ex tables tables' rect Hp.
  assert (Hs : scanTables ex tables = scanTables ex tables')
    by (apply scan_permutation; assumption).
  split; [exact Hs|]. split.
  - unfold fitToView. rewrite Hs.
    destruct tables as [|t l], tables' as [|t' l']; try reflexivity.
    + apply Permutation_nil in Hp. discriminate.
    + apply Permutation_sym, Permutation_nil in Hp. discriminate.
  - unfold getContentBounds. rewrite Hs.
    destruct tables as [|t l], tables' as [|t' l']; try reflexivity.
    + apply Permutation_nil in Hp. discriminate.
    + apply Permutation_sym, Permutation_nil in Hp. discriminate.
Qed.

Lemma bounds_ignore_table_order_witness :
  fitToView [] [scenarioA_left; scenarioA_right] (Some viewport800x600)
  = fitToView [] [scenarioA_right; scenarioA_left] (Some viewport800x600).
Proof.
  apply (bounds_ignore_table_order [] [scenarioA_left; scenarioA_right]
           [scenarioA_right; scenarioA_left] (Some viewport800x600)).
  apply perm_swap.
Defined.

(** X13: with at least one positioned table, [getContentBounds] reports
    six finite numbers: a rectangle that keeps 100 units of padding around
    every positioned table's box, whose [width] and [height] are its
    extents, at least 440 wide and 280 high. *)
Theorem getContentBounds_padded_box :
  forall ex tables,
    Exists hasPosition tables ->
    exists w h x0 y0 x1 y1,
      getContentBounds ex tables
      = mkContentBounds (Fin w) (Fin h) (Fin x0) (Fin y0) (Fin x1) (Fin y1)
      /\ w = x1 - x0 /\ h = y1 - y0
      /\ 440 <= w /\ 280 <= h
      /\ forall t p, In t tables -> position t = Some p ->
                     boxInside ex (x0 + 100) (y0 + 100) (x1 - 100) (y1 - 100)
                               t p.
Proof.
  intros ex tables Hex.
  destruct (scanTables_cases ex tables)
    as [[Hall _]|[_ (a & b & c & d & Hs & Hcw & Hch & Hcover)]].
  { exfalso. apply (not_all_unpositioned _ Hex Hall). }
  exists (c + - a + 100 * 2), (d + - b + 100 * 2),
         (a + - 100), (b + - 100), (c + 100), (d + 100).
  split.
  - unfold getContentBounds. rewrite Hs.
    destruct tables; [inversion Hex | reflexivity].
  - do 4 (split; [lra|]).
    intros t p Hin Hp. destruct (Hcover t p Hin Hp) as (? & ? & ? & ?).
    unfold boxInside. lra.
Qed.

Lemma getContentBounds_padded_box_witness :
  exists w h x0 y0 x1 y1,
    getContentBounds [] [unplaced; scenarioA_right]
    = mkContentBounds (Fin w) (Fin h) (Fin x0) (Fin y0) (Fin x1) (Fin y1)
    /\ w = x1 - x0 /\ h = y1 - y0
    /\ 440 <= w /\ 280 <= h
    /\ forall t p, In t [unplaced; scenarioA_right] -> position t = Some p ->
                   boxInside [] (x0 + 100) (y0 + 100) (x1 - 100) (y1 - 100)
                             t p.
Proof.
  apply (getContentBounds_padded_box [] [unplaced; scenarioA_right]).
  apply Exists_cons_tl, Exists_cons_hd. unfold hasPosition; simpl. discriminate.
Defined.

Lemma Rmin_either u v : Rmin u v = u \/ Rmin u v = v.
Proof. split_minmax; auto. Qed.

Lemma Rmax_either u v : Rmax u v = u \/ Rmax u v = v.
Proof. split_minmax; auto. Qed.

(** Each accumulator of a scan started on finite values is its starting
    value or is reached by a table of the list. *)
Lemma scan_from_finite_attained ex tables : forall a b c d a' b' c' d',
  fold_left (scanTable ex) tables (mkExtent (Fin a) (Fin b) (Fin c) (Fin d))
  = mkExtent (Fin a') (Fin b') (Fin c') (Fin d') ->
  (a' = a \/ exists t p, In t tables /\ position t = Some p /\ pos_x p = a')
  /\ (b' = b \/ exists t p, In t tables /\ position t = Some p /\ pos_y p = b')
  /\ (c' = c \/ exists t p, In t tables /\ position t = Some p
                            /\ pos_x p + tableWidth = c')
  /\ (d' = d \/ exists t p, In t tables /\ position t = Some p
                            /\ pos_y p + tableHeight ex t = d').
Proof.
  induction tables as [|t tables IH]; intros a b c d a' b' c' d' H; simpl in H.
  - injection H as <- <- <- <-. repeat split; left; reflexivity.
  - destruct (position t) as [p|] eqn:Hp.
    + rewrite (scanTable_next _ _ _ _ _ _ _ Hp) in H.
      destruct (IH _ _ _ _ _ _ _ _ H) as (Ha & Hb & Hc & Hd).
      assert (Hlater : forall (P : table -> point -> Prop),
                 (exists t0 p0, In t0 tables /\ position t0 = Some p0 /\ P t0 p0) ->
                 exists t0 p0, In t0 (t :: tables) /\ position t0 = Some p0
                               /\ P t0 p0).
      { intros P (t0 & p0 & Hin & Hp0 & HP). exists t0, p0.
        repeat split; [right|..]; assumption. }
      repeat split.
      * destruct Ha as [->|Ha]; [|right; apply (Hlater (fun _ q => pos_x q = a')), Ha].
        destruct (Rmin_either a (pos_x p)) as [->| ->]; [left; reflexivity|].
        right. exists t, p. repeat split; [left; reflexivity | assumption].
      * destruct Hb as [->|Hb]; [|right; apply (Hlater (fun _ q => pos_y q = b')), Hb].
        destruct (Rmin_either b (pos_y p)) as [->| ->]; [left; reflexivity|].
        right. exists t, p. repeat split; [left; reflexivity | assumption].
      * destruct Hc as [->|Hc];
          [|right; apply (Hlater (fun _ q => pos_x q + tableWidth = c')), Hc].
        destruct (Rmax_either c (pos_x p + tableWidth)) as [->| ->];
          [left; reflexivity|].
        right. exists t, p. repeat split; [left; reflexivity | assumption].
      * destruct Hd as [->|Hd];
          [|right;
            apply (Hlater (fun t0 q => pos_y q + tableHeight ex t0 = d')), Hd].
        destruct (Rmax_either d (pos_y p + tableHeight ex t)) as [->| ->];
          [left; reflexivity|].
        right. exists t, p. repeat split; [left; reflexivity | assumption].
    + rewrite (scanTable_skip _ _ _ Hp) in H.
      destruct (IH _ _ _ _ _ _ _ _ H) as (Ha & Hb & Hc & Hd).
      repeat split.
      * destruct Ha as [->|(t0 & p0 & Hin & Hq)]; [left; reflexivity|].
        right. exists t0, p0. split; [right; assumption | assumption].
      * destruct Hb as [->|(t0 & p0 & Hin & Hq)]; [left; reflexivity|].
        right. exists t0, p0. split; [right; assumption | assumption].
      * destruct Hc as [->|(t0 & p0 & Hin & Hq)]; [left; reflexivity|].
        right. exists t0, p0. split; [right; assumption | assumption].
      * destruct Hd as [->|(t0 & p0 & Hin & Hq)]; [left; reflexivity|].
        right. exists t0, p0. split; [right; assumption | assumption].
Qed.

(** X14: the scan computes the exact bounding box.  When it ends on four
    finite numbers, every positioned table's box lies inside the rectangle
    they span, and each of the four sides is touched by the box of some
    positioned table. *)
Theorem scanTables_exact_bounding_box :
  forall ex tables a b c d,
    scanTables ex tables = mkExtent (Fin a) (Fin b) (Fin c) (Fin d) ->
    (forall t p, In t tables -> position t = Some p ->
                 boxInside ex a b c d t p)
    /\ (exists t p, In t tables /\ position t = Some p /\ pos_x p = a)
    /\ (exists t p, In t tables /\ position t = Some p /\ pos_y p = b)
    /\ (exists t p, In t tables /\ position t = Some p
                    /\ pos_x p + tableWidth = c)
    /\ (exists t p, In t tables /\ position t = Some p
                    /\ pos_y p + tableHeight ex t = d).
Proof.
  intros ex tables a b c d Hs. split.
  - destruct (scanTables_cases ex tables)
      as [[_ H0]|[_ (a' & b' & c' & d' & Hs' & _ & _ & Hcover)]].
    + rewrite Hs in H0. discriminate.
    + rewrite Hs in Hs'. injection Hs' as <- <- <- <-. exact Hcover.
  - revert Hs. unfold scanTables.
    induction tables as [|t tables IH]; simpl; intros Hs; [discriminate|].
    destruct (position t) as [p|] eqn:Hp.
    + rewrite (scanTable_first _ _ _ Hp) in Hs.
      destruct (scan_from_finite_attained _ _ _ _ _ _ _ _ _ _ Hs)
        as (Ha & Hb & Hc & Hd).
      assert (Hlater : forall (P : table -> point -> Prop),
                 (exists t0 p0, In t0 tables /\ position t0 = Some p0 /\ P t0 p0) ->
                 exists t0 p0, In t0 (t :: tables) /\ position t0 = Some p0
                               /\ P t0 p0).
      { intros P (t0 & p0 & Hin & Hp0 & HP). exists t0, p0.
        repeat split; [right|..]; assumption. }
      repeat split.
      * destruct Ha as [->|Ha];
          [|apply (Hlater (fun _ q => pos_x q = a)), Ha].
        exists t, p. repeat split; [left; reflexivity | assumption].
      * destruct Hb as [->|Hb];
          [|apply (Hlater (fun _ q => pos_y q = b)), Hb].
        exists t, p. repeat split; [left; reflexivity | assumption].
      * destruct Hc as [->|Hc];
          [|apply (Hlater (fun _ q => pos_x q + tableWidth = c)), Hc].
        exists t, p. repeat split; [left; reflexivity | assumption].
      * destruct Hd as [->|Hd];
          [|apply (Hlater (fun t0 q => pos_y q + tableHeight ex t0 = d)), Hd].
        exists t, p. repeat split; [left; reflexivity | assumption].
    + rewrite (scanTable_skip _ _ _ Hp) in Hs.
      destruct (IH Hs) as (Ha & Hb & Hc & Hd).
      repeat split.
      * destruct Ha as (t0 & p0 & Hin & Hq).
        exists t0, p0. split; [right; assumption | assumption].
      * destruct Hb as (t0 & p0 & Hin & Hq).
        exists t0, p0. split; [right; assumption | assumption].
      * destruct Hc as (t0 & p0 & Hin & Hq).
        exists t0, p0. split; [right; assumption | assumption].
      * destruct Hd as (t0 & p0 & Hin & Hq).
        exists t0, p0. split; [right; assumption | assumption].
Qed.

Lemma scanTables_exact_bounding_box_witness :
  (exists t p, In t [scenarioA_left; scenarioA_right]
               /\ position t = Some p /\ pos_x p + tableWidth = 640).
Proof.
  apply (scanTables_exact_bounding_box [] [scenarioA_left; scenarioA_right]
           0 0 640 80).
  exact scenarioA_scan.
Defined.

(** ** Rendering of tables *)

Lemma renderRows_nth conns sel t p cols : forall start i r,
  nth_error (renderRows conns sel t p start cols) i = Some r ->
  (i < List.length cols)%nat
  /\ nth_error cols i = Some (row_column r)
  /\ row_y r = pos_y p + 55 + INR (start + i) * 20
  /\ row_highlighted r = isColumnHighlighted conns sel (id t) (row_column r).
Proof.
  induction cols as [|column rest IH]; intros start i r H; simpl in H.
  - destruct i; discriminate.
  - destruct i as [|i]; simpl in H.
    + injection H as <-. simpl. rewrite Nat.add_0_r.
      repeat split; try reflexivity. apply Nat.lt_0_succ.
    + destruct (IH _ _ _ H) as (Hlt & Hcol & Hy & Hh).
      simpl. rewrite Nat.add_succ_r. simpl in Hy.
      repeat split; try assumption. apply (proj1 (Nat.succ_lt_mono _ _)), Hlt.
Qed.

Lemma renderRows_length conns sel t p cols : forall start,
  List.length (renderRows conns sel t p start cols) = List.length cols.
Proof.
  induction cols as [|column rest IH]; intros start; simpl;
    [reflexivity | f_equal; apply IH].
Qed.

Lemma renderRows_columns conns sel t p cols : forall start,
  map row_column (renderRows conns sel t p start cols) = cols.
Proof.
  induction cols as [|column rest IH]; intros start; simpl;
    [reflexivity | f_equal; apply IH].
Qed.

(** X15: the rows of a drawn table stay inside its box.  The [i]-th row
    sits at [y + 55 + 20 i]; its highlight bar (from 10 above, 18 high)
    starts below the 40-high header and ends above the bottom of the box,
    so consecutive bars, 20 apart, do not overlap either. *)
Theorem renderTable_rows_inside_box :
  forall ex conns sel t d,
    renderTable ex conns sel t = Some d ->
    forall i r, nth_error (dt_rows d) i = Some r ->
      row_y r = dt_y d + 55 + INR i * 20
      /\ dt_y d + 40 <= row_y r - 10
      /\ row_y r - 10 + 18 <= dt_y d + dt_height d.
Proof.
  intros ex conns sel t d H i r Hr. unfold renderTable in H.
  destruct (position t) as [p|] eqn:Hp; [|discriminate].
  injection H as <-. simpl in *.
  unfold tableHeight, columnCount.
  destruct (includes ex (id t)); [|destruct i; discriminate].
  destruct (renderRows_nth _ _ _ _ _ _ _ _ Hr) as (Hlt & _ & Hy & _).
  simpl in Hy.
  assert (Hlen : List.length (match columns t with Some cs => cs | None => [] end)
                 = match columns t with Some cs => List.length cs | None => 0%nat end)
    by (destruct (columns t); reflexivity).
  rewrite Hlen in Hlt.
  set (n := match columns t with Some cs => List.length cs | None => 0%nat end) in *.
  pose proof (pos_INR i) as Hi0.
  assert (Hin : INR i + 1 <= INR n).
  { rewrite <- S_INR. apply le_INR. exact Hlt. }
  pose proof (Rmax_r 120 (INR n * 20 + 60)).
  repeat split; lra.
Qed.

Lemma renderTable_rows_inside_box_witness :
  exists d,
    renderTable ["table1"%string] [edgeB] "col_a" table1 = Some d
    /\ forall i r, nth_error (dt_rows d) i = Some r ->
         row_y r = dt_y d + 55 + INR i * 20
         /\ dt_y d + 40 <= row_y r - 10
         /\ row_y r - 10 + 18 <= dt_y d + dt_height d.
Proof.
  eexists. split; [reflexivity|].
  apply (renderTable_rows_inside_box ["table1"%string] [edgeB] "col_a" table1).
  reflexivity.
Defined.

(** X16: a table is drawn exactly when it has a position, at that position
    and 240 wide; when it is in the expanded list it shows one row per
    column, in the order of [columns], and when it is not it shows none. *)
Theorem renderTable_shows_columns :
  forall ex conns sel t,
    (renderTable ex conns sel t = None <-> position t = None)
    /\ forall d, renderTable ex conns sel t = Some d ->
         position t = Some (mkPoint (dt_x d) (dt_y d))
         /\ dt_width d = 240
         /\ dt_expanded d = includes ex (id t)
         /\ map row_column (dt_rows d)
            = (if includes ex (id t)
               then match columns t with Some cs => cs | None => [] end
               else []).
Proof.
  intros ex conns sel t. unfold renderTable.
  destruct (position t) as [[x y]|]; split.
  - split; discriminate.
  - intros d H. injection H as <-. simpl.
    repeat split. destruct (includes ex (id t)); [|reflexivity].
    apply renderRows_columns.
  - split; reflexivity.
  - discriminate.
Qed.

Lemma renderTable_shows_columns_witness :
  exists d,
    renderTable ["table1"%string] [edgeB] "col_a" table1 = Some d
    /\ map row_column (dt_rows d) = ["col_a"; "col_b"]%string.
Proof.
  eexists. split; [reflexivity|].
  apply (renderTable_shows_columns ["table1"%string] [edgeB] "col_a" table1).
  reflexivity.
Defined.

(** ** Highlighting *)



(** ** Rendering of connections, continued *)

(** X18: the path of a connection between two positioned tables leaves the
    middle of the source header's right edge and enters the middle of the
    target header's left edge.  Both control points are level with their
    end of the curve, the same distance [off] away from it, and [off] is
    between 80 and 200: it is 80 when the horizontal gap is at most 200 and
    200 when the gap is 500 or more. *)
Theorem getConnectionPath_geometry :
  forall ft tt fp tp,
    position ft = Some fp -> position tt = Some tp ->
    let gap := Rabs (pos_x tp - (pos_x fp + 240)) in
    exists off,
      getConnectionPath ft tt
      = Ok (mkPath (pos_x fp + 240, pos_y fp + 40)
                   (pos_x fp + 240 + off, pos_y fp + 40)
                   (pos_x tp - off, pos_y tp + 40)
                   (pos_x tp, pos_y tp + 40))
      /\ 80 <= off <= 200
      /\ (gap <= 200 -> off = 80)
      /\ (500 <= gap -> off = 200).
Proof.
  intros ft tt fp tp Hf Ht gap.
  exists (Rmin (Rmax (gap * (4/10)) 80) 200).
  split.
  - unfold getConnectionPath, positionOf. rewrite Hf, Ht. reflexivity.
  - pose proof (Rabs_pos (pos_x tp - (pos_x fp + 240))) as Hg.
    fold gap in Hg. generalize dependent gap. intros gap Hg.
    repeat split; try intros ?; split_minmax; lra.
Qed.

Lemma getConnectionPath_geometry_witness :
  exists off,
    getConnectionPath table1 table2
    = Ok (mkPath (0 + 240, 0 + 40) (0 + 240 + off, 0 + 40)
                 (400 - off, 0 + 40) (400, 0 + 40))
    /\ 80 <= off <= 200
    /\ (Rabs (400 - (0 + 240)) <= 200 -> off = 80)
    /\ (500 <= Rabs (400 - (0 + 240)) -> off = 200).
Proof.
  apply (getConnectionPath_geometry table1 table2 (mkPoint 0 0)
                                    (mkPoint 400 0)); reflexivity.
Defined.

Lemma findTable_some tables tableId t :
  findTable tables tableId = Some t -> In t tables /\ id t = tableId.
Proof.
  unfold findTable. intros H. apply find_some in H.
  destruct H as [Hin Heq]. apply String.eqb_eq in Heq. tauto.
Qed.

Lemma findTable_none_inv tables tableId :
  findTable tables tableId = None ->
  forall t, In t tables -> id t <> tableId.
Proof.
  unfold findTable. intros H t Hin. apply (find_none _ _ H) in Hin.
  apply String.eqb_neq. exact Hin.
Qed.

(** The three outcomes of a connection callback, by what the two lookups
    find. *)
Lemma renderConnection_cases tables sel conn :
  (renderConnection tables sel conn = Ok None
   /\ (findTable tables (ep_table (from conn)) = None
       \/ findTable tables (ep_table (to conn)) = None))
  \/ (renderConnection tables sel conn = TypeError
      /\ exists ft tt,
           findTable tables (ep_table (from conn)) = Some ft
           /\ findTable tables (ep_table (to conn)) = Some tt
           /\ (position ft = None \/ position tt = None))
  \/ (exists ft tt fp tp path,
         findTable tables (ep_table (from conn)) = Some ft
         /\ findTable tables (ep_table (to conn)) = Some tt
         /\ position ft = Some fp /\ position tt = Some tp
         /\ getConnectionPath ft tt = Ok path
         /\ renderConnection tables sel conn
            = Ok (Some (mkDrawn path (isHighlighted sel conn)
                          (if isHighlighted sel conn
                           then Some ((pos_x fp + 240 + pos_x tp) / 2,
                                      (pos_y fp + 40 + pos_y tp + 40) / 2)
                           else None)))).
Proof.
  destruct (findTable tables (ep_table (from conn))) as [ft|] eqn:Hf.
  2:{ left. unfold renderConnection. rewrite Hf. tauto. }
  destruct (findTable tables (ep_table (to conn))) as [tt|] eqn:Ht.
  2:{ left. unfold renderConnection. rewrite Hf, Ht. tauto. }
  right.
  destruct (position ft) as [fp|] eqn:Hfp.
  2:{ left. split.
      - unfold renderConnection, getConnectionPath, positionOf.
        rewrite Hf, Ht, Hfp. reflexivity.
      - exists ft, tt. tauto. }
  destruct (position tt) as [tp|] eqn:Htp.
  2:{ left. split.
      - unfold renderConnection, getConnectionPath, positionOf.
        rewrite Hf, Ht, Hfp, Htp. reflexivity.
      - exists ft, tt. tauto. }
  right. exists ft, tt, fp, tp. eexists.
  do 2 (split; [reflexivity|]). split; [exact Hfp|]. split; [exact Htp|].
  assert (Hpath : forall path, getConnectionPath ft tt = Ok path ->
            renderConnection tables sel conn
            = Ok (Some (mkDrawn path (isHighlighted sel conn)
                          (if isHighlighted sel conn
                           then Some ((pos_x fp + 240 + pos_x tp) / 2,
                                      (pos_y fp + 40 + pos_y tp + 40) / 2)
                           else None)))).
  { intros path Hpath. unfold renderConnection, positionOf.
    rewrite Hf, Ht, Hpath, Hfp, Htp. simpl.
    destruct (isHighlighted sel conn); reflexivity. }
  split; [|apply Hpath]; unfold getConnectionPath, positionOf;
    rewrite Hfp, Htp; reflexivity.
Qed.

Lemma mapM_error {A B} (f : A -> result B) l :
  mapM f l = TypeError <-> exists a, In a l /\ f a = TypeError.
Proof.
  induction l as [|a l IH]; simpl.
  - split; [discriminate | intros (a & [] & _)].
  - destruct (f a) as [b|] eqn:Hfa; simpl.
    + destruct (mapM f l) as [bs|] eqn:Hm; simpl.
      * split; [discriminate|]. intros (a' & [<-|Hin] & Ha').
        -- congruence.
        -- destruct IH as [_ IH]. discriminate IH. exists a'. tauto.
      * split; [|reflexivity]. intros _.
        destruct IH as [IH _]. destruct (IH eq_refl) as (a' & Hin & Ha').
        exists a'. tauto.
    + split; [|reflexivity]. intros _. exists a. tauto.
Qed.

Lemma renderConnection_error_iff tables sel conn :
  renderConnection tables sel conn = TypeError
  <-> exists ft tt,
        findTable tables (ep_table (from conn)) = Some ft
        /\ findTable tables (ep_table (to conn)) = Some tt
        /\ (position ft = None \/ position tt = None).
Proof.
  destruct (renderConnection_cases tables sel conn)
    as [[Hr Hnone]|[[Hr Hex]|(ft & tt & fp & tp & path & Hf & Ht & Hfp & Htp & _ & Hr)]].
  - rewrite Hr. split; [discriminate|].
    intros (ft & tt & Hf & Ht & _). destruct Hnone; congruence.
  - tauto.
  - rewrite Hr. split; [discriminate|].
    intros (ft' & tt' & Hf' & Ht' & Hpos).
    rewrite Hf in Hf'. rewrite Ht in Ht'.
    injection Hf' as <-. injection Ht' as <-. destruct Hpos; congruence.
Qed.

(** X19: what makes a frame fail.  Rendering the scene throws exactly when
    some connection joins two tables that are both in the list and one of
    them has no position. *)
Theorem renderScene_fails_iff :
  forall tables conns ex sel,
    renderScene tables conns ex sel = TypeError
    <-> exists conn ft tt,
          In conn conns
          /\ findTable tables (ep_table (from conn)) = Some ft
          /\ findTable tables (ep_table (to conn)) = Some tt
          /\ (position ft = None \/ position tt = None).
Proof.
  intros tables conns ex sel.
  assert (Hs : renderScene tables conns ex sel = TypeError
               <-> renderConnections tables sel conns = TypeError).
  { unfold renderScene.
    destruct (renderConnections tables sel conns); simpl;
      split; (discriminate || reflexivity). }
  rewrite Hs. unfold renderConnections. rewrite mapM_error. split.
  - intros (conn & Hin & He). apply renderConnection_error_iff in He.
    destruct He as (ft & tt & He). exists conn, ft, tt. tauto.
  - intros (conn & ft & tt & Hin & He). exists conn. split; [assumption|].
    apply renderConnection_error_iff. exists ft, tt. exact He.
Qed.

Lemma renderScene_fails_iff_witness :
  renderScene [unplaced; table2]
              [mkConnection (mkEndpoint "t1" "id") (mkEndpoint "table2" "col_a")]
              [] "id"
  = TypeError.
Proof.
  apply renderScene_fails_iff.
  exists (mkConnection (mkEndpoint "t1" "id") (mkEndpoint "table2" "col_a")),
         unplaced, table2.
  split; [left; reflexivity|]. split; [reflexivity|]. split; [reflexivity|].
  left. reflexivity.
Defined.

(** X20: the pulsing dot of an edge.  A drawn edge carries a marker
    exactly when it is highlighted, and the marker sits halfway between the
    two ends of its path. *)
Theorem renderConnection_marker :
  forall tables sel conn d,
    renderConnection tables sel conn = Ok (Some d) ->
    (dc_marker d = None <-> dc_highlighted d = false)
    /\ forall m, dc_marker d = Some m ->
         m = ((fst (path_start (dc_path d)) + fst (path_end (dc_path d))) / 2,
              (snd (path_start (dc_path d)) + snd (path_end (dc_path d))) / 2).
Proof.
  intros tables sel conn d H.
  destruct (renderConnection_cases tables sel conn)
    as [[Hr _]|[[Hr _]|(ft & tt & fp & tp & path & _ & _ & Hfp & Htp & Hpath & Hr)]];
    try congruence.
  rewrite Hr in H. injection H as <-. simpl.
  unfold getConnectionPath, positionOf in Hpath. rewrite Hfp, Htp in Hpath.
  simpl in Hpath. injection Hpath as <-. simpl.
  destruct (isHighlighted sel conn); split.
  - split; discriminate.
  - intros m Hm. injection Hm as <-. f_equal; lra.
  - split; reflexivity.
  - discriminate.
Qed.

Lemma renderConnection_marker_witness :
  dc_marker (edgeB_drawn (isHighlighted "col_b" edgeB)) = None
  <-> dc_highlighted (edgeB_drawn (isHighlighted "col_b" edgeB)) = false.
Proof.
  apply (renderConnection_marker [table1; table2] "col_b" edgeB).
  apply edgeB_rendered.
Defined.

Lemma mapM_nth {A B} (f : A -> result B) l : forall bs,
  mapM f l = Ok bs ->
  List.length bs = List.length l
  /\ forall i a, nth_error l i = Some a ->
                 exists b, nth_error bs i = Some b /\ f a = Ok b.
Proof.
  induction l as [|a l IH]; simpl; intros bs H.
  - injection H as <-. split; [reflexivity|]. intros [|i] a0; discriminate.
  - destruct (f a) as [b|] eqn:Hfa; simpl in H; [|discriminate].
    destruct (mapM f l) as [bs'|]; simpl in H; [|discriminate].
    injection H as <-. destruct (IH bs' eq_refl) as [Hlen Hnth].
    split; [simpl; f_equal; assumption|].
    intros [|i] a0 Ha0; simpl in *.
    + injection Ha0 as <-. exists b. tauto.
    + apply Hnth. assumption.
Qed.

(** X21: a frame that renders has one output per connection, in the order
    of the list: the [i]-th output is what the callback returns on the
    [i]-th connection. *)
Theorem renderConnections_aligned :
  forall tables sel conns drawn,
    renderConnections tables sel conns = Ok drawn ->
    List.length drawn = List.length conns
    /\ forall i conn, nth_error conns i = Some conn ->
         exists r, nth_error drawn i = Some r
                   /\ renderConnection tables sel conn = Ok r.
Proof.
  intros tables sel conns drawn H. apply mapM_nth. exact H.
Qed.

Lemma renderConnections_aligned_witness :
  exists drawn,
    renderConnections [table1; table2] "col_a" [edgeC; edgeB] = Ok drawn
    /\ List.length drawn = List.length [edgeC; edgeB].
Proof.
  exists [None; Some (edgeB_drawn (isHighlighted "col_a" edgeB))].
  assert (H : renderConnections [table1; table2] "col_a" [edgeC; edgeB]
              = Ok [None; Some (edgeB_drawn (isHighlighted "col_a" edgeB))]).
  { unfold renderConnections. cbn [mapM].
    rewrite (edgeB_rendered "col_a"). reflexivity. }
  split; [exact H|].
  apply (renderConnections_aligned [table1; table2] "col_a" [edgeC; edgeB]).
  exact H.
Defined.

(** X22: an edge is skipped exactly when one of its endpoints names no
    table of the list, and drawn exactly when both its tables are in the
    list and have a position. *)
Theorem renderConnection_skipped_iff_stale :
  forall tables sel conn,
    (renderConnection tables sel conn = Ok None <-> staleEdge tables conn)
    /\ ((exists d, renderConnection tables sel conn = Ok (Some d))
        <-> exists ft tt fp tp,
              findTable tables (ep_table (from conn)) = Some ft
              /\ findTable tables (ep_table (to conn)) = Some tt
              /\ position ft = Some fp /\ position tt = Some tp).
Proof.
  intros tables sel conn. split.
  - split; [|apply renderConnection_stale].
    intros H.
    destruct (renderConnection_cases tables sel conn)
      as [[_ [Hn|Hn]]|[[Hr _]|(? & ? & ? & ? & ? & _ & _ & _ & _ & _ & Hr)]];
      try congruence.
    + left. apply findTable_none_inv. assumption.
    + right. apply findTable_none_inv. assumption.
  - split.
    + intros (d & H).
      destruct (renderConnection_cases tables sel conn)
        as [[Hr _]|[[Hr _]|(ft & tt & fp & tp & ? & Hf & Ht & Hfp & Htp & _)]];
        try congruence.
      exists ft, tt, fp, tp. tauto.
    + intros (ft & tt & fp & tp & Hf & Ht & Hfp & Htp).
      destruct (renderConnection_drawn tables sel conn ft tt fp tp
                  Hf Ht Hfp Htp) as (d & Hd & _).
      exists d. exact Hd.
Qed.

Lemma renderConnection_skipped_iff_stale_witness :
  staleEdge [table1; table2] edgeC.
Proof.
  apply (renderConnection_skipped_iff_stale [table1; table2] "col_a" edgeC).
  reflexivity.
Defined.

(** ** Expand / collapse, continued *)

(** X23: a toggle flips the table it names and no other.  Afterwards
    [includes] answers the opposite for that id and the same for every
    other id, so the drawn height of every other table is unchanged, and
    the toggled table is at least 120 high when it became expanded and 80
    when it became collapsed. *)
Theorem toggleTable_flips_one :
  forall prev tableId,
    includes (toggleTable prev tableId) tableId = negb (includes prev tableId)
    /\ (forall s, s <> tableId ->
          includes (toggleTable prev tableId) s = includes prev s)
    /\ (forall t, id t <> tableId ->
          tableHeight (toggleTable prev tableId) t = tableHeight prev t)
    /\ (forall t, id t = tableId ->
          if includes prev tableId
          then tableHeight (toggleTable prev tableId) t = 80
          else 120 <= tableHeight (toggleTable prev tableId) t).
Proof.
  intros prev tableId.
  assert (Hself : includes (toggleTable prev tableId) tableId
                  = negb (includes prev tableId)).
  { destruct (includes prev tableId) eqn:E; simpl.
    - apply includes_not_In. rewrite toggleTable_In.
      apply includes_In in E. tauto.
    - apply includes_In. rewrite toggleTable_In.
      apply includes_not_In in E. tauto. }
  assert (Hother : forall s, s <> tableId ->
             includes (toggleTable prev tableId) s = includes prev s).
  { intros s Hne. destruct (includes prev s) eqn:E.
    - apply includes_In. rewrite toggleTable_In.
      apply includes_In in E. tauto.
    - apply includes_not_In. rewrite toggleTable_In.
      apply includes_not_In in E. tauto. }
  split; [exact Hself|]. split; [exact Hother|]. split.
  - intros t Hne. unfold tableHeight. rewrite (Hother _ Hne). reflexivity.
  - intros t <-. unfold tableHeight. rewrite Hself.
    destruct (includes prev (id t)); simpl; [reflexivity|]. apply Rmax_l.
Qed.

Lemma toggleTable_flips_one_witness :
  tableHeight (toggleTable ["table1"; "table2"]%string "table1") table2
  = tableHeight ["table1"; "table2"]%string table2.
Proof.
  apply (toggleTable_flips_one ["table1"; "table2"]%string "table1").
  simpl. discriminate.
Defined.

(** X24: after the lineage data arrived with at least one table, every
    table of the data is expanded, so each one that is drawn is drawn
    expanded; the transform is not touched by the load itself. *)
Theorem loaded_tables_are_expanded :
  forall s tables,
    tables <> [] ->
    let s' := step s (Loaded tables) in
    st_transform s' = st_transform s
    /\ forall t, In t tables ->
         includes (st_expandedTables s') (id t) = true
         /\ forall conns sel d,
              renderTable (st_expandedTables s') conns sel t = Some d ->
              dt_expanded d = true.
Proof.
  intros s tables Hne. destruct tables as [|t0 tables]; [contradiction|].
  simpl. split; [reflexivity|]. intros t Hin.
  assert (Hinc : includes (id t0 :: map id tables) (id t) = true).
  { apply includes_In. apply (in_map id (t0 :: tables)). exact Hin. }
  split; [exact Hinc|].
  intros conns sel d Hd. unfold renderTable in Hd.
  destruct (position t); [|discriminate]. injection Hd as <-. simpl.
  exact Hinc.
Qed.

Lemma loaded_tables_are_expanded_witness :
  includes (st_expandedTables (step initialState (Loaded [table1; table2])))
           (id table2) = true.
Proof.
  apply (loaded_tables_are_expanded initialState [table1; table2]).
  - discriminate.
  - right; left; reflexivity.
Defined.

(** ** The zoom label *)

Lemma reachable_scaleInRange s : reachable s -> scaleInRange (st_transform s).
Proof.
  induction 1 as [|s ev _ IH].
  - unfold scaleInRange; simpl. lra.
  - apply step_scale. exact IH.
Qed.

Lemma jsRound_bounds x (lo hi : Z) :
  IZR lo <= x <= IZR hi -> (lo <= jsRound x <= hi)%Z.
Proof.
  intros [Hlo Hhi]. unfold jsRound.
  destruct (base_Int_part (x + 1/2)) as [H1 H2].
  split.
  - assert (H : IZR (lo - 1) < IZR (Int_part (x + 1/2)))
      by (rewrite minus_IZR; lra).
    apply lt_IZR in H. lia.
  - assert (H : IZR (Int_part (x + 1/2)) < IZR (hi + 1))
      by (rewrite plus_IZR; lra).
    apply lt_IZR in H. lia.
Qed.

(** X25: the zoom label never leaves 10% .. 300%.  In every reachable
    state the rounded percentage shown between the zoom buttons is an
    integer between 10 and 300. *)
Theorem zoomLabel_between_10_and_300 :
  forall s, reachable s -> (10 <= zoomLabel (st_transform s) <= 300)%Z.
Proof.
  intros s Hr. apply reachable_scaleInRange in Hr. unfold scaleInRange in Hr.
  unfold zoomLabel. apply jsRound_bounds. lra.
Qed.

Lemma zoomLabel_between_10_and_300_witness :
  (10 <= zoomLabel (st_transform
                      (step (step initialState
                                  (Wheel viewport800x600 scenarioD_wheel))
                            (ZoomInClick (Some viewport800x600))))
   <= 300)%Z.
Proof.
  apply zoomLabel_between_10_and_300. do 2 apply reach_step. apply reach_init.
Defined.

(** ** The agent log *)

Lemma sliceLast_snoc {A} n (l : list A) k :
  sliceLast (S n) (l ++ [k]) = sliceLast n l ++ [k].
Proof.
  unfold sliceLast. rewrite length_app. simpl.
  replace (List.length l + 1 - S n)%nat with (List.length l - n)%nat by lia.
  rewrite skipn_app.
  replace (List.length l - n - List.length l)%nat with 0%nat by lia.
  reflexivity.
Qed.

Lemma sliceLast_sliceLast {A} n (l : list A) :
  sliceLast n (sliceLast (S n) l) = sliceLast n l.
Proof.
  unfold sliceLast. rewrite length_skipn, skipn_skipn. f_equal. lia.
Qed.

Lemma sliceLast_map {A B} (f : A -> B) n l :
  sliceLast n (map f l) = map f (sliceLast n l).
Proof. unfold sliceLast. rewrite length_map. apply skipn_map. Qed.

Lemma sliceLast_length {A} n (l : list A) :
  List.length (sliceLast n l) = Nat.min (List.length l) n.
Proof. unfold sliceLast. rewrite length_skipn. lia. Qed.

(** X26: the agent log is a window on the last ten ticks.  After any
    number of ticks it holds exactly the entries of the last ten of them,
    oldest first, hence never more than ten. *)
Theorem agentLog_last_ten :
  forall ticks,
    runAgentLog ticks = map entryOf (sliceLast 10 ticks)
    /\ List.length (runAgentLog ticks) = Nat.min (List.length ticks) 10.
Proof.
  assert (H : forall ticks, runAgentLog ticks = map entryOf (sliceLast 10 ticks)).
  { intros ticks. induction ticks as [|k ticks IH] using rev_ind.
    - reflexivity.
    - unfold runAgentLog in *. rewrite fold_left_app. simpl. rewrite IH.
      unfold appendAgentLog. rewrite sliceLast_map, sliceLast_sliceLast.
      rewrite sliceLast_snoc, map_app. reflexivity. }
  intros ticks. split; [apply H|].
  rewrite H, length_map. apply sliceLast_length.
Qed.

Lemma pickRandom_in_range arr random :
  arr <> [] -> 0 <= random < 1 ->
  exists s, pickRandom arr random = Some s /\ In s arr.
Proof.
  intros Hne [H0 H1]. unfold pickRandom.
  set (n := List.length arr).
  assert (Hn : 0 < INR n).
  { apply lt_0_INR. unfold n. destruct arr; [contradiction | simpl; lia]. }
  destruct (base_Int_part (random * INR n)) as [Hi1 Hi2].
  set (i := Int_part (random * INR n)) in *.
  assert (Hprod : 0 <= random * INR n < INR n) by nra.
  assert (Hlo : (0 <= i)%Z).
  { assert (H : IZR (-1) < IZR i) by lra. apply lt_IZR in H. lia. }
  assert (Hhi : (i < Z.of_nat n)%Z).
  { apply lt_IZR. rewrite <- INR_IZR_INZ. lra. }
  destruct (Z.ltb_spec i 0) as [Hneg|_]; [lia|].
  destruct (nth_error arr (Z.to_nat i)) as [s|] eqn:E.
  - exists s. split; [reflexivity|]. apply nth_error_In in E. exact E.
  - exfalso. apply (proj2 (nth_error_Some arr (Z.to_nat i))); [|exact E].
    fold n. lia.
Qed.

(** X27: every log entry names an agent and an activity.  As long as the
    two random numbers of a tick are in [0, 1), the entry it appends
    carries one of the three agent names and one of the four activities,
    never [undefined]. *)
Theorem agentLog_entry_named :
  forall k,
    0 <= tick_random1 k < 1 -> 0 <= tick_random2 k < 1 ->
    exists agent activity,
      entryOf k = mkAgentLog (tick_now k) (Some agent) (Some activity)
                             (tick_time k)
      /\ In agent agentNames /\ In activity activities.
Proof.
  intros k H1 H2.
  destruct (pickRandom_in_range agentNames (tick_random1 k)
              ltac:(discriminate) H1) as (agent & Ha & Hina).
  destruct (pickRandom_in_range activities (tick_random2 k)
              ltac:(discriminate) H2) as (activity & Hb & Hinb).
  exists agent, activity. unfold entryOf. rewrite Ha, Hb. tauto.
Qed.

Lemma agentLog_entry_named_witness :
  exists agent activity,
    entryOf (mkTick 1700000000000 (1/2) (9/10) "10:15:00 AM")
    = mkAgentLog 1700000000000 (Some agent) (Some activity) "10:15:00 AM"
    /\ In agent agentNames /\ In activity activities.
Proof.
  apply (agentLog_entry_named (mkTick 1700000000000 (1/2) (9/10) "10:15:00 AM"));
    simpl; lra.
Defined.
